(** * Bloom-bits indexing and filtering of the Atlantis node

    A shallow embedding of the bloom-bits glue code of the full node
    ([eth/backend.go], [eth/api_backend.go]) and of the light node
    ([les/api_backend.go]), together with models of the collaborators
    these files call into (the bit-plane codec, the section indexer, the
    matcher and its sessions), which live in packages whose sources are
    not part of the examined tree. *)

From Stdlib Require Import ZArith Lia.
From stdpp Require Import base numbers option list gmap strings.

Local Open Scope Z_scope.
Local Open Scope nat_scope.

(** ** Bloom filters *)

Module Bloom.

(** Width in bits of a block's event-bloom filter. *)
Definition BloomBitLength : nat := 2048.

(** A bloom filter is a 2048-bit vector, kept as the integer whose
    binary digits are the filter's bits. *)
Abbreviation t := Z (only parsing).

(** [test b k]: bit [k] of the filter is set. *)
Definition test (b : t) (bitIndex : nat) : bool :=
  Z.testbit b (Z.of_nat bitIndex).

(** The filter with exactly the listed bit positions set. *)
Definition ofBits (bits : list nat) : t :=
  foldr (λ k acc, Z.lor (Z.shiftl 1 (Z.of_nat k)) acc) 0%Z bits.

End Bloom.

(** ** Bit-plane codec *)

Module Codec.

(** Modelled from the spec: the bit-plane codec ([core/bloombits], the
    generator), whose source is missing.  A fragment is a byte vector;
    block offset [i] of a section lives in byte [i / 8], at bit
    [i mod 8] of that byte, bits being numbered from the most
    significant one (big-endian bit-within-byte). *)
Definition byteBit (byte : Z) (k : nat) : bool :=
  negb (Z.land byte (Z.shiftl 1 (Z.of_nat (7 - k))) =? 0)%Z.

Definition bitMask (offset : nat) : Z :=
  Z.shiftl 1 (Z.of_nat (7 - offset mod 8)).

(** Modelled from the spec: the implicit decoder, a bit test. *)
Definition testBit (frag : list Z) (offset : nat) : bool :=
  match frag !! (offset / 8) with
  | Some byte => byteBit byte (offset mod 8)
  | None => false
  end.

(** Raising the bit of one block offset in a fragment.  An offset past
    the end of the vector leaves it as it is. *)
Definition setBit (offset : nat) (frag : list Z) : list Z :=
  alter (Z.lor (bitMask offset)) (offset / 8) frag.

(** Number of bytes that hold one bit per block of a section:
    sectionSize / 8 when the size is a multiple of 8, and rounded up
    for smaller sections such as the sections of 4 blocks of the
    scenario. *)
Definition fragmentBytes (sectionSize : nat) : nat := (sectionSize + 7) / 8.

(** The running state of an encoding: the 2048 planes built so far and
    the offset of the next block. *)
Record state : Type := mkState {
    planes : list (list Z);
    nextOffset : nat
  }.

Definition start (sectionSize : nat) : state :=
  {| planes := replicate Bloom.BloomBitLength
                 (replicate (fragmentBytes sectionSize) 0%Z);
     nextOffset := 0 |}.

(** Modelled from the spec: one block contributes exactly one bit per
    plane, at the position equal to its offset within the section. *)
Definition addBlock (st : state) (bloom : Bloom.t) : state :=
  {| planes := imap (λ bitIndex frag,
                 if Bloom.test bloom bitIndex
                 then setBit (nextOffset st) frag else frag) (planes st);
     nextOffset := S (nextOffset st) |}.

(** Modelled from the spec: [encode] maps the ordered bloom filters of
    one section to the mapping bitIndex -> byte vector, here the list
    of the 2048 planes; blocks are taken in ascending order. *)
Definition encode (sectionSize : nat) (sectionBlooms : list Bloom.t)
  : list (list Z) :=
  planes (foldl addBlock (start sectionSize) sectionBlooms).

End Codec.

(** ** The canonical chain, as seen by the indexer *)

Module Chain.

Abbreviation Hash := Z (only parsing).

(** What the index needs of a block: its bloom filter and its hash. *)
Record Block : Type := mkBlock { bloom : Bloom.t; hash : Hash }.

(** The canonical chain: the block numbered [n] is the [n]-th entry. *)
Abbreviation t := (list Block) (only parsing).

(** Section [s] is the run of block numbers
    [s * size .. s * size + size - 1]. *)
Definition sectionBlocks (size : nat) (c : t) (s : nat) : list Block :=
  take size (drop (s * size) c).

Definition sectionBlooms (size : nat) (c : t) (s : nat) : list Bloom.t :=
  bloom <$> sectionBlocks size c s.

(** Hash of the final block of section [s], the tag of its fragments. *)
Definition sectionHead (size : nat) (c : t) (s : nat) : option Hash :=
  hash <$> c !! (s * size + (size - 1)).

End Chain.

(** ** Section indexer *)

Module Indexer.

(** Modelled from the spec: the section indexer ([core.ChainIndexer]
    with the bloom-bits processor), whose source is missing.  It owns
    the section lifecycle and the fragment store.  Fragments are keyed
    by (bitIndex, sectionIndex, headHashTag); a completion checkpoint
    is a pair (sectionIndex, headHash). *)
Record t : Type := mk {
    sectionSize : nat;
    confirmationDepth : nat;
    storedSections : nat;
    checkpoints : gmap nat Chain.Hash;
    fragments : gmap (nat * nat * Chain.Hash) (list Z);
    inflight : option (nat * nat);
    canon : Chain.t;
    started : bool;
    closed : bool
  }.

Definition setStored (n : nat) (ix : t) : t :=
  mk (sectionSize ix) (confirmationDepth ix) n (checkpoints ix)
     (fragments ix) (inflight ix) (canon ix) (started ix) (closed ix).
Definition setCheckpoints (m : gmap nat Chain.Hash) (ix : t) : t :=
  mk (sectionSize ix) (confirmationDepth ix) (storedSections ix) m
     (fragments ix) (inflight ix) (canon ix) (started ix) (closed ix).
Definition setFragments (m : gmap (nat * nat * Chain.Hash) (list Z)) (ix : t) : t :=
  mk (sectionSize ix) (confirmationDepth ix) (storedSections ix)
     (checkpoints ix) m (inflight ix) (canon ix) (started ix) (closed ix).
Definition setInflight (f : option (nat * nat)) (ix : t) : t :=
  mk (sectionSize ix) (confirmationDepth ix) (storedSections ix)
     (checkpoints ix) (fragments ix) f (canon ix) (started ix) (closed ix).
Definition setCanon (c : Chain.t) (ix : t) : t :=
  mk (sectionSize ix) (confirmationDepth ix) (storedSections ix)
     (checkpoints ix) (fragments ix) (inflight ix) c (started ix) (closed ix).
Definition setStarted (b : bool) (ix : t) : t :=
  mk (sectionSize ix) (confirmationDepth ix) (storedSections ix)
     (checkpoints ix) (fragments ix) (inflight ix) (canon ix) b (closed ix).
Definition setClosed (b : bool) (ix : t) : t :=
  mk (sectionSize ix) (confirmationDepth ix) (storedSections ix)
     (checkpoints ix) (fragments ix) (inflight ix) (canon ix) (started ix) b.

(** A fresh indexer: nothing stored, nothing in flight. *)
Definition new (size confirms : nat) : t :=
  mk size confirms 0 ∅ ∅ None [] false false.

(** Modelled from the spec: the per-section state machine
    Empty -> Processing -> Stored, with the back edge on invalidation. *)
Inductive status : Type := Empty | Processing | Stored.

Definition sectionStatus (ix : t) (s : nat) : status :=
  if bool_decide (s < storedSections ix) then Stored
  else match inflight ix with
       | Some (s', _) => if bool_decide (s = s') then Processing else Empty
       | None => Empty
       end.

(** Modelled from the spec: the number of sections whose last block has
    at least [confirmationDepth] confirmations under the current head
    (the head is block [length canon - 1]). *)
Definition indexable (ix : t) : nat :=
  (length (canon ix) - confirmationDepth ix) / sectionSize ix.

(** *** The unit of work on one section, write by write *)

Definition begin (ix : t) : t :=
  setInflight (Some (storedSections ix, 0)) ix.

(** The planes of section [s] on the current canonical chain. *)
Definition sectionPlanes (ix : t) (s : nat) : list (list Z) :=
  Codec.encode (sectionSize ix)
    (Chain.sectionBlooms (sectionSize ix) (canon ix) s).

(** Persist plane [k] of section [s] under the tag of the section's
    final block hash. *)
Definition storePlane (s k : nat) (planes : list (list Z)) (ix : t) : t :=
  let ix' :=
    match Chain.sectionHead (sectionSize ix) (canon ix) s, planes !! k with
    | Some h, Some frag => setFragments (<[(k, s, h) := frag]> (fragments ix)) ix
    | _, _ => ix
    end in
  setInflight (Some (s, S k)) ix'.

Definition writePlane (s k : nat) (ix : t) : t :=
  storePlane s k (sectionPlanes ix s) ix.

(** Persist the completion checkpoint: only now is the section Stored. *)
Definition commit (s : nat) (ix : t) : t :=
  match Chain.sectionHead (sectionSize ix) (canon ix) s with
  | Some h =>
      setInflight None
        (setStored (S s) (setCheckpoints (<[s := h]> (checkpoints ix)) ix))
  | None => setInflight None ix
  end.

(** Processing failure or abort: the section stays Empty. *)
Definition abort (ix : t) : t := setInflight None ix.

(** Modelled from the spec: on a reorganisation with common ancestor
    [N], every stored or in-flight section whose range extends beyond
    [N] is invalidated: its checkpoint is deleted, its fragments stay
    in the store until overwritten. *)
Definition keptSections (ix : t) (N : nat) : nat := S N / sectionSize ix.

Definition invalidate (N : nat) (ix : t) : t :=
  let keep := keptSections ix N in
  setInflight
    (match inflight ix with
     | Some (s, k) => if bool_decide (s < keep) then Some (s, k) else None
     | None => None
     end)
    (setStored (storedSections ix `min` keep)
       (setCheckpoints (filter (λ p, p.1 < keep) (checkpoints ix)) ix)).

Definition reorg (N : nat) (c : Chain.t) (ix : t) : t :=
  setCanon c (invalidate N ix).

(** *** The indexer as a transition system *)

(** Work on the section in flight. *)
Inductive work : t → t → Prop :=
  | work_write ix s k :
      inflight ix = Some (s, k) → k < Bloom.BloomBitLength →
      work ix (writePlane s k ix)
  | work_commit ix s :
      inflight ix = Some (s, Bloom.BloomBitLength) →
      work ix (commit s ix)
  | work_abort ix s k :
      inflight ix = Some (s, k) →
      work ix (abort ix).

(** Starting the next section: only while the indexer accepts work,
    one section at a time, in increasing order. *)
Inductive begins : t → t → Prop :=
  | begins_next ix :
      started ix = true → closed ix = false → inflight ix = None →
      storedSections ix < indexable ix →
      begins ix (begin ix).

Inductive step : t → t → Prop :=
  | step_work ix ix' : work ix ix' → step ix ix'
  | step_begin ix ix' : begins ix ix' → step ix ix'
  | step_head ix c :
      started ix = true → closed ix = false → canon ix `prefix_of` c →
      step ix (setCanon c ix)
  | step_reorg ix N c :
      started ix = true → closed ix = false → N < length c →
      take (S N) c = take (S N) (canon ix) →
      step ix (reorg N c ix)
  | step_start ix : step ix (setStarted true ix)
  | step_close ix : step ix (setClosed true ix).

(** Reprocessing: starting sections and working on them, with no new
    chain event in between. *)
Definition processing (ix ix' : t) : Prop := work ix ix' ∨ begins ix ix'.

Definition reachable (ix : t) : Prop :=
  ∃ size confirms, rtc step (new size confirms) ix.

(** *** Processing whole sections *)

Definition processSection (ix : t) : t :=
  let s := storedSections ix in
  let planes := sectionPlanes ix s in
  commit s (foldl (λ acc k, storePlane s k planes acc) (begin ix)
              (seq 0 Bloom.BloomBitLength)).

(** Modelled from the spec: on a new head, process in increasing order
    every section that became indexable. *)
Definition update (ix : t) : t :=
  Nat.iter (indexable ix - storedSections ix) processSection ix.

Definition newHead (c : Chain.t) (ix : t) : t := update (setCanon c ix).

(** *** What the indexer exposes *)

Definition lastHead (ix : t) : nat :=
  storedSections ix * sectionSize ix - 1.

Definition hasCheckpoint (ix : t) : bool :=
  bool_decide (is_Some (checkpoints ix !! (storedSections ix - 1))).

(** Modelled from the spec: Sections() -> (storedCount, lastHead,
    hasCheckpoint). *)
Definition Sections (ix : t) : Z * Z * bool :=
  (Z.of_nat (storedSections ix), Z.of_nat (lastHead ix), hasCheckpoint ix).

(** Modelled from the spec: the local-store retrieval backend.  A
    fragment is served when the section has a checkpoint and the
    fragment was persisted under the checkpoint's head hash. *)
Definition localFetch (ix : t) (bitIndex s : nat) : option (list Z) :=
  h ← checkpoints ix !! s; fragments ix !! (bitIndex, s, h).

(** The invariant of the indexer: every Stored section lies on the
    canonical chain, carries the checkpoint of its head hash and has all
    of its planes persisted under that hash with the contents the codec
    gives; no other section has a checkpoint; the unit in flight works
    on the first section that is not stored and has persisted the
    planes below its counter. *)
Record Inv (ix : t) : Prop := mkInv {
  inv_stored : ∀ s, s < storedSections ix →
    S s * sectionSize ix ≤ length (canon ix) ∧ 0 < sectionSize ix;
  inv_checkpoint : ∀ s, s < storedSections ix →
    checkpoints ix !! s = Chain.sectionHead (sectionSize ix) (canon ix) s;
  inv_no_checkpoint : ∀ s, storedSections ix ≤ s → checkpoints ix !! s = None;
  inv_fragments : ∀ s bit h,
    s < storedSections ix → bit < Bloom.BloomBitLength →
    Chain.sectionHead (sectionSize ix) (canon ix) s = Some h →
    fragments ix !! (bit, s, h) = sectionPlanes ix s !! bit;
  inv_inflight : ∀ s k, inflight ix = Some (s, k) →
    s = storedSections ix ∧ k ≤ Bloom.BloomBitLength
    ∧ S s * sectionSize ix ≤ length (canon ix) ∧ 0 < sectionSize ix
    ∧ ∀ bit h, bit < k →
        Chain.sectionHead (sectionSize ix) (canon ix) s = Some h →
        fragments ix !! (bit, s, h) = sectionPlanes ix s !! bit
}.

(** The frame of one processing step: the configuration and the chain
    stay, the stored count does not drop, and nothing of a Stored
    section is touched. *)
Definition untouched (ix ix' : t) : Prop :=
  sectionSize ix' = sectionSize ix
  ∧ confirmationDepth ix' = confirmationDepth ix
  ∧ canon ix' = canon ix
  ∧ started ix' = started ix
  ∧ closed ix' = closed ix
  ∧ storedSections ix ≤ storedSections ix'
  ∧ ∀ s, s < storedSections ix →
      checkpoints ix' !! s = checkpoints ix !! s
      ∧ ∀ bit h, fragments ix' !! (bit, s, h)
                 = fragments ix !! (bit, s, h).

(** Modelled from the spec: Close() stops the intake of head events and
    lets the unit in flight finish or abort; it returns once no unit
    is in flight. *)
Definition Close (ix ix' : t) : Prop :=
  rtc work (setClosed true ix) ix' ∧ inflight ix' = None.

End Indexer.

(** ** Matcher and matcher sessions *)

Module Matcher.

(** Modelled from the spec: a filter query is an ordered list of
    OR-groups of bit positions; the groups are ANDed. *)
Abbreviation Query := (list (list nat)) (only parsing).

(** The retrieval capability: fragment (bit, section) or not available. *)
Definition Backend : Type := nat → nat → option (list Z).

Definition isWildcard (g : list nat) : bool :=
  match g with [] => true | _ => false end.

(** Modelled from the spec: compiling a query skips the trivial
    (always-true) groups, which need no fragment at all. *)
Definition compile (q : Query) : list (list nat) :=
  filter (λ g, isWildcard g = false) q.

(** The bit planes a query refers to, the only ones requested. *)
Definition neededBits (q : Query) : list nat := concat (compile q).

Definition groupMatches (fetch : Backend) (s offset : nat) (g : list nat) : bool :=
  existsb (λ bit, from_option (λ frag, Codec.testBit frag offset) false (fetch bit s)) g.

(** Modelled from the spec: a block offset matches iff for every group
    at least one requested plane has the offset's bit set. *)
Definition offsetMatches (fetch : Backend) (q : Query) (s offset : nat) : bool :=
  forallb (groupMatches fetch s offset) (compile q).

Definition available (fetch : Backend) (q : Query) (s : nat) : bool :=
  forallb (λ bit, bool_decide (is_Some (fetch bit s))) (neededBits q).

(** Matching block numbers of one section, in ascending order; [None]
    when a needed fragment could not be obtained. *)
Definition matchSection (fetch : Backend) (size : nat) (q : Query) (s : nat)
  : option (list nat) :=
  if available fetch q s
  then Some ((λ offset, s * size + offset)
               <$> filter (λ offset, offsetMatches fetch q s offset = true) (seq 0 size))
  else None.

End Matcher.

Module Session.

Inductive direction : Type := Ascending | Descending.

Definition inRange (startBlock endBlock b : nat) : bool :=
  bool_decide (startBlock ≤ b ≤ endBlock).

(** The sections that meet [startBlock, endBlock], in traversal order. *)
Definition sectionsOf (size : nat) (d : direction) (startBlock endBlock : nat)
  : list nat :=
  let up := seq (startBlock / size) (S (endBlock / size) - startBlock / size) in
  match d with Ascending => up | Descending => reverse up end.

(** What one section contributes to the result sequence. *)
Definition sectionResults (d : direction) (startBlock endBlock : nat)
    (blocks : list nat) : list nat :=
  let hits := filter (λ b, inRange startBlock endBlock b = true) blocks in
  match d with Ascending => hits | Descending => reverse hits end.

(** Modelled from the spec: a session evaluates section by section and
    yields the matching block numbers of its range; when a needed
    fragment cannot be obtained it stops with "query incomplete at
    section s" and keeps what was produced so far. *)
Fixpoint evalSections (fetch : Matcher.Backend) (size : nat) (q : Matcher.Query)
    (d : direction) (startBlock endBlock : nat) (todo : list nat)
  : list nat * option nat :=
  match todo with
  | [] => ([], None)
  | s :: rest =>
      match Matcher.matchSection fetch size q s with
      | None => ([], Some s)
      | Some blocks =>
          let r := evalSections fetch size q d startBlock endBlock rest in
          (sectionResults d startBlock endBlock blocks ++ r.1, r.2)
      end
  end.

Definition run (fetch : Matcher.Backend) (size : nat) (q : Matcher.Query)
    (d : direction) (startBlock endBlock : nat) : list nat * option nat :=
  evalSections fetch size q d startBlock endBlock
    (sectionsOf size d startBlock endBlock).

(** *** A session as a transition system *)

Inductive phase : Type := Idle | Awaiting | Evaluating.

(** Modelled from the spec: the state of a match session: the section
    cursor (the sections still to do), the cancellation flag, the
    fragment requests issued to the scheduler so far, the results
    emitted so far, and the partial-result condition. *)
Record t : Type := mk {
    size : nat;
    query : Matcher.Query;
    dir : direction;
    startBlock : nat;
    endBlock : nat;
    todo : list nat;
    ph : phase;
    cancelled : bool;
    requests : list (nat * nat);
    emitted : list nat;
    incomplete : option nat
  }.

Definition NewSession (size : nat) (q : Matcher.Query) (startBlock endBlock : nat)
    (d : direction) : t :=
  mk size q d startBlock endBlock (sectionsOf size d startBlock endBlock)
     Idle false [] [] None.

Definition requestsFor (q : Matcher.Query) (s : nat) : list (nat * nat) :=
  (λ bit, (bit, s)) <$> Matcher.neededBits q.

(** Modelled from the spec: Close()/cancel raises the cancellation flag
    and touches nothing else. *)
Definition Close (ss : t) : t :=
  mk (size ss) (query ss) (dir ss) (startBlock ss) (endBlock ss) (todo ss)
     (ph ss) true (requests ss) (emitted ss) (incomplete ss).

(** Modelled from the spec: cancellation is cooperative, checked
    between sections and before each new batch of fragment requests;
    the scheduler drops delivery to a cancelled session; a section
    whose fragments were already delivered is still emitted. *)
Inductive step (fetch : Matcher.Backend) : t → t → Prop :=
  | step_request ss s rest :
      ph ss = Idle → cancelled ss = false → todo ss = s :: rest →
      step fetch ss
        (mk (size ss) (query ss) (dir ss) (startBlock ss) (endBlock ss) (todo ss)
            Awaiting (cancelled ss)
            (requests ss ++ requestsFor (query ss) s) (emitted ss) (incomplete ss))
  | step_deliver ss s rest :
      ph ss = Awaiting → cancelled ss = false → todo ss = s :: rest →
      Matcher.available fetch (query ss) s = true →
      step fetch ss
        (mk (size ss) (query ss) (dir ss) (startBlock ss) (endBlock ss) (todo ss)
            Evaluating (cancelled ss) (requests ss) (emitted ss) (incomplete ss))
  | step_unavailable ss s rest :
      ph ss = Awaiting → cancelled ss = false → todo ss = s :: rest →
      Matcher.available fetch (query ss) s = false →
      step fetch ss
        (mk (size ss) (query ss) (dir ss) (startBlock ss) (endBlock ss) []
            Idle (cancelled ss) (requests ss) (emitted ss) (Some s))
  | step_emit ss s rest blocks :
      ph ss = Evaluating → todo ss = s :: rest →
      Matcher.matchSection fetch (size ss) (query ss) s = Some blocks →
      step fetch ss
        (mk (size ss) (query ss) (dir ss) (startBlock ss) (endBlock ss) rest
            Idle (cancelled ss) (requests ss)
            (emitted ss ++ sectionResults (dir ss) (startBlock ss) (endBlock ss) blocks)
            (incomplete ss))
  | step_cancel ss :
      step fetch ss (Close ss).

End Session.

(** ** The node services *)

(** The chain indexer as the node code uses it.  [core.ChainIndexer] and
    the constructor [NewBloomIndexer] of [eth/bloombits.go] are not part
    of the examined sources; the node code is embedded over this
    interface.  [Close] is a relation: the call blocks on concurrent
    work whose outcome the caller does not choose. *)
Class ChainIndexerAPI (CI DB : Type) : Type := {
  NewBloomIndexer : DB → Z → CI;
  Start : CI → CI;
  Sections : CI → Z * Z * bool;
  Close : CI → CI → Prop
}.

Module Node.

(** [downloader.SyncMode] is a Go [int]. *)
Abbreviation SyncMode := Z (only parsing).

(** The chain database handle returned by [ctx.OpenDatabase]. *)
Inductive Database : Type := Db (name : string).

(** The channel [bloomRequests] on which retrieval tasks are served. *)
Inductive Chan : Type := BloomRequestsChan.

Inductive error : Type :=
  | ErrLightSync
  | ErrInvalidSyncMode (mode : SyncMode)
  | ErrOpenDatabase
  | ErrGenesis
  | ErrDbVersionMismatch (have want : Z)
  | ErrNewBlockChain
  | ErrNewProtocolManager.

(** Outcome of [core.SetupGenesisBlock]: no error, a
    [params.ConfigCompatError] carrying the block to rewind to, or any
    other error. *)
Inductive genesisErr : Type :=
  | GenesisOk
  | ConfigCompatError (rewindTo : Z)
  | GenesisOther.

(** The fields of [Config] that [New] branches on or copies. *)
Record Config : Type := mkConfig {
    cfgNetworkId : Z;
    cfgSyncMode : SyncMode;
    cfgSkipBcVersionCheck : bool;
    cfgGasPrice : Z;
    cfgTxPoolJournal : string;
    cfgGPODefault : option Z
  }.

(** What the collaborators answer during construction. *)
Record World : Type := mkWorld {
    openDatabase : string → option Database;
    setupGenesis : genesisErr;
    databaseVersion : Z;
    newBlockChainFails : bool;
    newProtocolManagerFails : bool
  }.

(** The calls into collaborators and the resources created, in program
    order. *)
Inductive call : Type :=
  | CallOpenDatabase (name : string)
  | CallSetupGenesisBlock
  | CallCreateConsensusEngine
  | CallMakeShutdownChan
  | CallMakeBloomRequests
  | CallNewBloomIndexer (size : Z)
  | CallReadDatabaseVersion
  | CallWriteDatabaseVersion (v : Z)
  | CallNewBlockChain
  | CallSetHead (n : Z)
  | CallWriteChainConfig
  | CallBloomIndexerStart
  | CallResolvePath (path : string)
  | CallNewTxPool
  | CallNewProtocolManager
  | CallMinerNew
  | CallMinerSetExtra
  | CallNewOracle
  | CallBloomIndexerClose
  | CallBlockchainStop
  | CallProtocolManagerStop
  | CallLesServerStop
  | CallTxPoolStop
  | CallMinerStop
  | CallEventMuxStop
  | CallChainDbClose
  | CallCloseShutdownChan
  | GoMultiplex (batch : Z) (wait : Z) (mux : Chan).

(** Fallible code that logs its calls: the error cuts the rest short,
    the log keeps what was done before. *)
Definition M (A : Type) : Type := list call → (A + error) * list call.

#[export] Instance M_ret : MRet M := λ A a log, (inl a, log).
#[export] Instance M_bind : MBind M := λ A B k m log,
  match m log with
  | (inl a, log') => k a log'
  | (inr e, log') => (inr e, log')
  end.
Definition fail {A} (e : error) : M A := λ log, (inr e, log).
Definition emit (c : call) : M unit := λ log, (inl tt, log ++ [c]).
Definition when (b : bool) (m : M unit) : M unit := if b then m else mret tt.

Section WithIndexer.

Context {CI : Type} {API : ChainIndexerAPI CI Database}.

(** Constants declared outside the examined sources. *)
Variable LightSync : SyncMode.              (* downloader.LightSync *)
Variable IsValid : SyncMode → bool.         (* downloader.SyncMode.IsValid *)
Variable BloomBitsBlocks : Z.               (* params.BloomBitsBlocks *)
Variable BlockChainVersion : Z.             (* core.BlockChainVersion *)
Variable bloomFilterThreads : nat.
Variable bloomRetrievalBatch : Z.
Variable bloomRetrievalWait : Z.

(** The full node service [Atlantis]; pointer fields that may be nil
    are options. *)
Record Atlantis : Type := mkAtlantis {
    config : Config;
    chainDb : Database;
    networkId : Z;
    gasPrice : Z;
    bloomRequests : Chan;
    bloomIndexer : option CI;
    lesServer : bool;
    gpoDefault : option Z
  }.

(** [EthAPIBackend{ath, gpo}]: the backend points to the service. *)
Record EthAPIBackend : Type := mkEthAPIBackend { ath : Atlantis }.

(** [CreateDB] of [eth/backend.go]. *)
Definition CreateDB (w : World) (name : string) : M Database :=
  emit (CallOpenDatabase name);;
  match openDatabase w name with
  | Some db => mret db
  | None => fail ErrOpenDatabase
  end.

(** [New] of [eth/backend.go]. *)
Definition New (w : World) (cfg : Config) : M Atlantis :=
  if bool_decide (cfgSyncMode cfg = LightSync) then fail ErrLightSync
  else if negb (IsValid (cfgSyncMode cfg))
  then fail (ErrInvalidSyncMode (cfgSyncMode cfg))
  else
    db ← CreateDB w "chaindata";
    emit CallSetupGenesisBlock;;
    match setupGenesis w with GenesisOther => fail ErrGenesis | _ => mret tt end;;
    emit CallCreateConsensusEngine;;
    emit CallMakeShutdownChan;;
    emit CallMakeBloomRequests;;
    emit (CallNewBloomIndexer BloomBitsBlocks);;
    let indexer := NewBloomIndexer db BloomBitsBlocks in
    when (negb (cfgSkipBcVersionCheck cfg))
      (emit CallReadDatabaseVersion;;
       if bool_decide (databaseVersion w ≠ BlockChainVersion
                       ∧ databaseVersion w ≠ 0%Z)
       then fail (ErrDbVersionMismatch (databaseVersion w) BlockChainVersion)
       else emit (CallWriteDatabaseVersion BlockChainVersion));;
    emit CallNewBlockChain;;
    (if newBlockChainFails w then fail ErrNewBlockChain else mret tt);;
    match setupGenesis w with
    | ConfigCompatError rewindTo =>
        emit (CallSetHead rewindTo);; emit CallWriteChainConfig
    | _ => mret tt
    end;;
    emit CallBloomIndexerStart;;
    let indexer := Start indexer in
    when (negb (String.eqb (cfgTxPoolJournal cfg) EmptyString))
      (emit (CallResolvePath (cfgTxPoolJournal cfg)));;
    emit CallNewTxPool;;
    emit CallNewProtocolManager;;
    (if newProtocolManagerFails w then fail ErrNewProtocolManager else mret tt);;
    emit CallMinerNew;;
    emit CallMinerSetExtra;;
    emit CallNewOracle;;
    mret {| config := cfg;
            chainDb := db;
            networkId := cfgNetworkId cfg;
            gasPrice := cfgGasPrice cfg;
            bloomRequests := BloomRequestsChan;
            bloomIndexer := Some indexer;
            lesServer := false;
            gpoDefault := match cfgGPODefault cfg with
                          | Some d => Some d
                          | None => Some (cfgGasPrice cfg)
                          end |}.

(** The Go result pair (service, error) of a run of [New] that
    starts with an empty log. *)
Definition NewResult (w : World) (cfg : Config)
  : option Atlantis * option error * list call :=
  match New w cfg [] with
  | (inl a, log) => (Some a, None, log)
  | (inr e, log) => (None, Some e, log)
  end.

(** [ath.APIBackend = &EthAPIBackend{ath, nil}]. *)
Definition APIBackend (s : Atlantis) : EthAPIBackend := {| ath := s |}.

(** [EthAPIBackend.BloomStatus].  [None] stands for the run-time
    panic of calling [Sections] through a nil indexer. *)
Definition EthBloomStatus (b : EthAPIBackend) : option (Z * Z) :=
  match bloomIndexer (ath b) with
  | None => None
  | Some ci =>
      let '(sections, _, _) := Sections ci in
      Some (BloomBitsBlocks, sections)
  end.

(** [EthAPIBackend.ServiceFilter]: the goroutines it starts. *)
Definition EthServiceFilter (b : EthAPIBackend) : list call :=
  (λ _, GoMultiplex bloomRetrievalBatch bloomRetrievalWait (bloomRequests (ath b)))
    <$> seq 0 bloomFilterThreads.

(** The calls [Atlantis.Stop] makes, in program order. *)
Definition stopCalls (s : Atlantis) : list call :=
  [CallBloomIndexerClose; CallBlockchainStop; CallProtocolManagerStop]
  ++ (if lesServer s then [CallLesServerStop] else [])
  ++ [CallTxPoolStop; CallMinerStop; CallEventMuxStop;
      CallChainDbClose; CallCloseShutdownChan].

(** [Atlantis.Stop]: it returns once [bloomIndexer.Close()] and the
    other calls have returned; with a nil indexer the first call
    panics and there is no final state. *)
Definition Stop (s s' : Atlantis) (log : list call) : Prop :=
  ∃ ci ci', bloomIndexer s = Some ci
    ∧ Close ci ci'
    ∧ s' = {| config := config s; chainDb := chainDb s;
              networkId := networkId s; gasPrice := gasPrice s;
              bloomRequests := bloomRequests s;
              bloomIndexer := Some ci';
              lesServer := lesServer s; gpoDefault := gpoDefault s |}
    ∧ log = stopCalls s.

End WithIndexer.

Section LightNode.

Context {CI : Type} {API : ChainIndexerAPI CI Database}.

Variable BloomTrieFrequency : Z.            (* light.BloomTrieFrequency *)
Variable bloomFilterThreads : nat.
Variable bloomRetrievalBatch : Z.
Variable bloomRetrievalWait : Z.

(** The fields of [LightAtlantis] the backend reads. *)
Record LightAtlantis : Type := mkLightAtlantis {
    lesBloomRequests : Chan;
    lesBloomIndexer : option CI
  }.

Record LesApiBackend : Type := mkLesApiBackend { lesAth : LightAtlantis }.

(** [LesApiBackend.BloomStatus]; [None] would be a nil dereference. *)
Definition LesBloomStatus (b : LesApiBackend) : option (Z * Z) :=
  match lesBloomIndexer (lesAth b) with
  | None => Some (0%Z, 0%Z)
  | Some ci =>
      let '(sections, _, _) := Sections ci in
      Some (BloomTrieFrequency, sections)
  end.

(** [LesApiBackend.ServiceFilter]. *)
Definition LesServiceFilter (b : LesApiBackend) : list call :=
  (λ _, GoMultiplex bloomRetrievalBatch bloomRetrievalWait
          (lesBloomRequests (lesAth b)))
    <$> seq 0 bloomFilterThreads.

End LightNode.

End Node.

(** The modelled section indexer behind the interface of the node code.
    Modelled from the spec: [NewBloomIndexer], missing from the sources,
    builds an indexer over sections of the given size; [bloomConfirms]
    is its confirmation depth. *)
Definition bloomIndexerAPI (bloomConfirms : nat)
  : ChainIndexerAPI Indexer.t Node.Database :=
  {| NewBloomIndexer := λ _ size, Indexer.new (Z.to_nat size) bloomConfirms;
     Start := Indexer.setStarted true;
     Sections := Indexer.Sections;
     Close := Indexer.Close |}.

(** ** The scenario of four blocks *)

Module Scenario.

Definition block (n : Z) (bits : list nat) : Chain.Block :=
  {| Chain.bloom := Bloom.ofBits bits; Chain.hash := (1000 + n)%Z |}.

(** Blocks 0-3 carry the bloom bits {5}, {}, {5,9}, {9}. *)
Definition chain : Chain.t :=
  [block 0 [5]; block 1 []; block 2 [5; 9]; block 3 [9]].

(** sectionSize = 4, confirmationDepth = 0, head at block 3. *)
Definition indexed : Indexer.t :=
  Indexer.newHead chain (Indexer.setStarted true (Indexer.new 4 0)).

Definition results (q : Matcher.Query) : list nat * option nat :=
  Session.run (Indexer.localFetch indexed) 4 q Session.Ascending 0 3.

(** The same indexer caught in the middle of section 0: the head event
    has arrived, the unit of section 0 has begun and has written plane 0
    of its 2048 planes. *)
Definition midSection : Indexer.t :=
  Indexer.writePlane 0 0
    (Indexer.begin
       (Indexer.setCanon chain (Indexer.setStarted true (Indexer.new 4 0)))).


(** A session for the query [{5}] over [0,3] whose fragments of section 0
    were delivered and are under evaluation, and the same session after
    it was cancelled and has emitted that section. *)
Definition evaluating : Session.t :=
  Session.mk 4 [[5]] Session.Ascending 0 3 [0] Session.Evaluating false
    [(5, 0)] [] None.

(** A full node whose bloom indexer holds the index above. *)
Definition node : Node.Atlantis (CI := Indexer.t) :=
  {| Node.config := Node.mkConfig 1%Z 1%Z false 0%Z EmptyString None;
     Node.chainDb := Node.Db "chaindata";
     Node.networkId := 1%Z;
     Node.gasPrice := 0%Z;
     Node.bloomRequests := Node.BloomRequestsChan;
     Node.bloomIndexer := Some indexed;
     Node.lesServer := false;
     Node.gpoDefault := Some 0%Z |}.

Definition cancelledAfterSection : Session.t :=
  Session.mk 4 [[5]] Session.Ascending 0 3 [] Session.Idle true
    [(5, 0)] [0; 2] None.

End Scenario.

(** ** Sample values

    Values for the constants and collaborators that the examined sources
  leave undeclared, used to run the definitions on concrete inputs. *)

Module Sample.

Definition FullSync : Node.SyncMode := 0%Z.
Definition FastSync : Node.SyncMode := 1%Z.
Definition LightSync : Node.SyncMode := 2%Z.
Definition IsValid (mode : Node.SyncMode) : bool :=
  bool_decide (FullSync ≤ mode ≤ LightSync)%Z.
Definition BloomBitsBlocks : Z := 4096%Z.
Definition BloomTrieFrequency : Z := 32768%Z.
Definition BlockChainVersion : Z := 3%Z.
Definition bloomConfirms : nat := 256.
Definition bloomFilterThreads : nat := 3.
Definition bloomRetrievalBatch : Z := 16%Z.
Definition bloomRetrievalWait : Z := 0%Z.

Definition world : Node.World :=
  {| Node.openDatabase := λ name, Some (Node.Db name);
     Node.setupGenesis := Node.GenesisOk;
     Node.databaseVersion := 0%Z;
     Node.newBlockChainFails := false;
     Node.newProtocolManagerFails := false |}.

Definition config (mode : Node.SyncMode) : Node.Config :=
  {| Node.cfgNetworkId := 1%Z;
     Node.cfgSyncMode := mode;
     Node.cfgSkipBcVersionCheck := false;
     Node.cfgGasPrice := 18000000000%Z;
     Node.cfgTxPoolJournal := "transactions.rlp";
     Node.cfgGPODefault := None |}.

#[global] Instance indexerAPI : ChainIndexerAPI Indexer.t Node.Database :=
  bloomIndexerAPI bloomConfirms.

(** The full node as [New] leaves it on the sample world. *)
Definition freshNode : Node.Atlantis (CI := Indexer.t) :=
  {| Node.config := config FastSync;
     Node.chainDb := Node.Db "chaindata";
     Node.networkId := 1%Z;
     Node.gasPrice := 18000000000%Z;
     Node.bloomRequests := Node.BloomRequestsChan;
     Node.bloomIndexer :=
       Some (Indexer.setStarted true (Indexer.new 4096 bloomConfirms));
     Node.lesServer := false;
     Node.gpoDefault := Some 18000000000%Z |}.

End Sample.

(** ** FUSE protocol versions ([vendor/bazil.org/fuse/protocol.go]) *)

Module Fuse.

(** [Protocol]: a version number, two [uint32] fields. *)
Record Protocol : Type := mkProtocol { Major : Z; Minor : Z }.

(** [LT]: a is less than b. *)
Definition LT (a b : Protocol) : bool :=
  (Major a <? Major b)%Z
  || ((Major a =? Major b)%Z && (Minor a <? Minor b)%Z).

(** [GE]: a is greater than or equal to b. *)
Definition GE (a b : Protocol) : bool :=
  (Major a >? Major b)%Z
  || ((Major a =? Major b)%Z && (Minor a >=? Minor b)%Z).

Definition is79 (a : Protocol) : bool := GE a (mkProtocol 7 9).
Definition HasAttrBlockSize (a : Protocol) : bool := is79 a.
Definition HasReadWriteFlags (a : Protocol) : bool := is79 a.
Definition HasGetattrFlags (a : Protocol) : bool := is79 a.

Definition is710 (a : Protocol) : bool := GE a (mkProtocol 7 10).
Definition HasOpenNonSeekable (a : Protocol) : bool := is710 a.

Definition is712 (a : Protocol) : bool := GE a (mkProtocol 7 12).
Definition HasUmask (a : Protocol) : bool := is712 a.
Definition HasInvalidate (a : Protocol) : bool := is712 a.

(** The feature tests of the file, for statements about all of them. *)
Definition features : list (Protocol → bool) :=
  [HasAttrBlockSize; HasReadWriteFlags; HasGetattrFlags;
   HasOpenNonSeekable; HasUmask; HasInvalidate].

End Fuse.

(** ** The metered message stream ([eth/metrics.go]) *)

Module Metered.

(** Of [p2p.Msg], the fields the metering reads: [Code] ([uint64]) and
    [Size] ([uint32]). *)
Record Msg : Type := mkMsg { Code : Z; Size : Z }.

Inductive ioError : Type := IoError (reason : string).

(** The registered meters, by the names they are registered under, each
    with the count marked so far; a meter that was never marked counts
    0. *)
Definition count (meters : gmap string Z) (name : string) : Z :=
  default 0%Z (meters !! name).

(** [meter.Mark(n)]. *)
Definition Mark (name : string) (n : Z) (meters : gmap string Z) : gmap string Z :=
  <[name := (count meters name + n)%Z]> meters.

Definition propTxnInPacketsMeter : string := "ath/prop/txns/in/packets".
Definition propTxnInTrafficMeter : string := "ath/prop/txns/in/traffic".
Definition propTxnOutPacketsMeter : string := "ath/prop/txns/out/packets".
Definition propTxnOutTrafficMeter : string := "ath/prop/txns/out/traffic".
Definition propHashInPacketsMeter : string := "ath/prop/hashes/in/packets".
Definition propHashInTrafficMeter : string := "ath/prop/hashes/in/traffic".
Definition propHashOutPacketsMeter : string := "ath/prop/hashes/out/packets".
Definition propHashOutTrafficMeter : string := "ath/prop/hashes/out/traffic".
Definition propBlockInPacketsMeter : string := "ath/prop/blocks/in/packets".
Definition propBlockInTrafficMeter : string := "ath/prop/blocks/in/traffic".
Definition propBlockOutPacketsMeter : string := "ath/prop/blocks/out/packets".
Definition propBlockOutTrafficMeter : string := "ath/prop/blocks/out/traffic".
Definition reqHeaderInPacketsMeter : string := "ath/req/headers/in/packets".
Definition reqHeaderInTrafficMeter : string := "ath/req/headers/in/traffic".
Definition reqHeaderOutPacketsMeter : string := "ath/req/headers/out/packets".
Definition reqHeaderOutTrafficMeter : string := "ath/req/headers/out/traffic".
Definition reqBodyInPacketsMeter : string := "ath/req/bodies/in/packets".
Definition reqBodyInTrafficMeter : string := "ath/req/bodies/in/traffic".
Definition reqBodyOutPacketsMeter : string := "ath/req/bodies/out/packets".
Definition reqBodyOutTrafficMeter : string := "ath/req/bodies/out/traffic".
Definition reqStateInPacketsMeter : string := "ath/req/states/in/packets".
Definition reqStateInTrafficMeter : string := "ath/req/states/in/traffic".
Definition reqStateOutPacketsMeter : string := "ath/req/states/out/packets".
Definition reqStateOutTrafficMeter : string := "ath/req/states/out/traffic".
Definition reqReceiptInPacketsMeter : string := "ath/req/receipts/in/packets".
Definition reqReceiptInTrafficMeter : string := "ath/req/receipts/in/traffic".
Definition reqReceiptOutPacketsMeter : string := "ath/req/receipts/out/packets".
Definition reqReceiptOutTrafficMeter : string := "ath/req/receipts/out/traffic".
Definition miscInPacketsMeter : string := "ath/misc/in/packets".
Definition miscInTrafficMeter : string := "ath/misc/in/traffic".
Definition miscOutPacketsMeter : string := "ath/misc/out/packets".
Definition miscOutTrafficMeter : string := "ath/misc/out/traffic".

(** The meters by direction and measure. *)
Definition inPacketsMeters : list string :=
  [propTxnInPacketsMeter; propHashInPacketsMeter; propBlockInPacketsMeter;
   reqHeaderInPacketsMeter; reqBodyInPacketsMeter; reqStateInPacketsMeter;
   reqReceiptInPacketsMeter; miscInPacketsMeter].
Definition inTrafficMeters : list string :=
  [propTxnInTrafficMeter; propHashInTrafficMeter; propBlockInTrafficMeter;
   reqHeaderInTrafficMeter; reqBodyInTrafficMeter; reqStateInTrafficMeter;
   reqReceiptInTrafficMeter; miscInTrafficMeter].
Definition outPacketsMeters : list string :=
  [propTxnOutPacketsMeter; propHashOutPacketsMeter; propBlockOutPacketsMeter;
   reqHeaderOutPacketsMeter; reqBodyOutPacketsMeter; reqStateOutPacketsMeter;
   reqReceiptOutPacketsMeter; miscOutPacketsMeter].
Definition outTrafficMeters : list string :=
  [propTxnOutTrafficMeter; propHashOutTrafficMeter; propBlockOutTrafficMeter;
   reqHeaderOutTrafficMeter; reqBodyOutTrafficMeter; reqStateOutTrafficMeter;
   reqReceiptOutTrafficMeter; miscOutTrafficMeter].

(** The sum of the counts of some meters. *)
Definition total (names : list string) (meters : gmap string Z) : Z :=
  foldr (λ name acc, (count meters name + acc)%Z) 0%Z names.

(** [meteredMsgReadWriter]: the wrapped stream is the collaborator, the
    wrapper's own state is the protocol version. *)
Record meteredMsgReadWriter : Type := mkMetered { version : Z }.

(** [newMeteredMsgWriter]: [None] when the metrics system is disabled and
    the original stream is returned as it is. *)
Definition newMeteredMsgWriter (metricsEnabled : bool)
  : option meteredMsgReadWriter :=
  if negb metricsEnabled then None else Some {| version := 0 |}.

(** [Init]. *)
Definition Init (v : Z) (rw : meteredMsgReadWriter) : meteredMsgReadWriter :=
  {| version := v |}.

Section Codes.

(** The protocol version [ath63] and the message codes, declared in
    [eth/protocol.go], outside the examined sources. *)
Variable ath63 : Z.
Variables NewBlockHashesMsg TxMsg BlockHeadersMsg BlockBodiesMsg : Z.
Variables NewBlockMsg NodeDataMsg ReceiptsMsg : Z.

(** The [switch] of [ReadMsg]: the first case that holds decides. *)
Definition inMeters (rw : meteredMsgReadWriter) (msg : Msg) : string * string :=
  if (Code msg =? BlockHeadersMsg)%Z
  then (reqHeaderInPacketsMeter, reqHeaderInTrafficMeter)
  else if (Code msg =? BlockBodiesMsg)%Z
  then (reqBodyInPacketsMeter, reqBodyInTrafficMeter)
  else if (version rw >=? ath63)%Z && (Code msg =? NodeDataMsg)%Z
  then (reqStateInPacketsMeter, reqStateInTrafficMeter)
  else if (version rw >=? ath63)%Z && (Code msg =? ReceiptsMsg)%Z
  then (reqReceiptInPacketsMeter, reqReceiptInTrafficMeter)
  else if (Code msg =? NewBlockHashesMsg)%Z
  then (propHashInPacketsMeter, propHashInTrafficMeter)
  else if (Code msg =? NewBlockMsg)%Z
  then (propBlockInPacketsMeter, propBlockInTrafficMeter)
  else if (Code msg =? TxMsg)%Z
  then (propTxnInPacketsMeter, propTxnInTrafficMeter)
  else (miscInPacketsMeter, miscInTrafficMeter).

(** The [switch] of [WriteMsg]. *)
Definition outMeters (rw : meteredMsgReadWriter) (msg : Msg) : string * string :=
  if (Code msg =? BlockHeadersMsg)%Z
  then (reqHeaderOutPacketsMeter, reqHeaderOutTrafficMeter)
  else if (Code msg =? BlockBodiesMsg)%Z
  then (reqBodyOutPacketsMeter, reqBodyOutTrafficMeter)
  else if (version rw >=? ath63)%Z && (Code msg =? NodeDataMsg)%Z
  then (reqStateOutPacketsMeter, reqStateOutTrafficMeter)
  else if (version rw >=? ath63)%Z && (Code msg =? ReceiptsMsg)%Z
  then (reqReceiptOutPacketsMeter, reqReceiptOutTrafficMeter)
  else if (Code msg =? NewBlockHashesMsg)%Z
  then (propHashOutPacketsMeter, propHashOutTrafficMeter)
  else if (Code msg =? NewBlockMsg)%Z
  then (propBlockOutPacketsMeter, propBlockOutTrafficMeter)
  else if (Code msg =? TxMsg)%Z
  then (propTxnOutPacketsMeter, propTxnOutTrafficMeter)
  else (miscOutPacketsMeter, miscOutTrafficMeter).

(** [ReadMsg]: [inner] is what the wrapped stream's [ReadMsg] returns.
    [int64(msg.Size)] is the size itself, a [uint32] fits. *)
Definition ReadMsg (rw : meteredMsgReadWriter) (inner : Msg * option ioError)
    (meters : gmap string Z) : (Msg * option ioError) * gmap string Z :=
  match inner with
  | (msg, Some err) => ((msg, Some err), meters)
  | (msg, None) =>
      let '(packets, traffic) := inMeters rw msg in
      ((msg, None), Mark traffic (Size msg) (Mark packets 1 meters))
  end.

(** [WriteMsg]: [inner] is what the wrapped stream's [WriteMsg] returns
    for the message. *)
Definition WriteMsg (rw : meteredMsgReadWriter) (msg : Msg)
    (inner : option ioError) (meters : gmap string Z)
  : option ioError * gmap string Z :=
  let '(packets, traffic) := outMeters rw msg in
  (inner, Mark traffic (Size msg) (Mark packets 1 meters)).

(** Reading through what [newMeteredMsgWriter] returned. *)
Definition readThrough (w : option meteredMsgReadWriter)
    (inner : Msg * option ioError) (meters : gmap string Z)
  : (Msg * option ioError) * gmap string Z :=
  match w with
  | Some rw => ReadMsg rw inner meters
  | None => (inner, meters)
  end.

End Codes.

End Metered.

(** ** The rest of the full node service ([eth/backend.go]) *)

Module Service.

(** [common.Address]; 0 stands for the zero address [common.Address{}]. *)
Abbreviation Address := Z (only parsing).

Section ExtraData.

(** [params.MaximumExtraDataSize] ([uint64]), declared outside the
    examined sources. *)
Variable MaximumExtraDataSize : Z.

(** What [rlp.EncodeToBytes] gives for the version, "gath", the Go
    version and the operating system; its error is dropped by the
    code. *)
Variable defaultExtraData : list Z.

(** [makeExtraData]; the nil slice is the empty list. *)
Definition makeExtraData (extra : list Z) : list Z :=
  let extra := if bool_decide (length extra = 0) then defaultExtraData else extra in
  if bool_decide (Z.of_nat (length extra) > MaximumExtraDataSize)%Z
  then []
  else extra.

End ExtraData.

(** The fields of [Atlantis] and of its miner, protocol manager and
    consensus engine that the mining functions read and write:
    [s.atherbase]; the address the miner was last given (by
    [miner.SetAtlantisbase] or [miner.Start]); whether a goroutine
    running [miner.Start] was launched; [protocolManager.acceptTxs]; the
    signer authorised with the clique engine. *)
Record Mining : Type := mkMining {
  atherbase : Address;
  minerCoinbase : Address;
  minerStarted : bool;
  acceptTxs : Z;
  cliqueSigner : option Address
}.

Inductive miningError : Type :=
  | ErrAtherbaseUnspecified
  | ErrAtherbaseMissing
  | ErrSignerMissing.

(** [Atlantis.Atlantisbase]: [wallets] is what
    [AccountManager().Wallets()] returns, each wallet given by the
    addresses of its accounts. *)
Definition Atlantisbase (wallets : list (list Address)) (s : Mining)
  : (Address * option miningError) * Mining :=
  if bool_decide (atherbase s ≠ 0%Z) then ((atherbase s, None), s)
  else match wallets with
       | (a :: _) :: _ =>
           ((a, None),
            mkMining a (minerCoinbase s) (minerStarted s) (acceptTxs s) (cliqueSigner s))
       | _ => ((0%Z, Some ErrAtherbaseUnspecified), s)
       end.

(** [Atlantis.SetAtlantisbase]. *)
Definition SetAtlantisbase (a : Address) (s : Mining) : Mining :=
  mkMining a a (minerStarted s) (acceptTxs s) (cliqueSigner s).

(** [Atlantis.StartMining]: [isClique] tells whether the engine is a
    clique engine, [findWallet] whether [accountManager.Find] returns a
    wallet and no error for the account of an address. *)
Definition StartMining (local : bool) (isClique : bool)
    (findWallet : Address → bool) (wallets : list (list Address)) (s : Mining)
  : option miningError * Mining :=
  match Atlantisbase wallets s with
  | ((_, Some _), s1) => (Some ErrAtherbaseMissing, s1)
  | ((eb, None), s1) =>
      if isClique && negb (findWallet eb) then (Some ErrSignerMissing, s1)
      else
        let signer := if isClique then Some eb else cliqueSigner s1 in
        let accept := if local then 1%Z else acceptTxs s1 in
        (None, mkMining (atherbase s1) eb true accept signer)
  end.

(** Go's [int] on a 64-bit platform. *)
Definition int (z : Z) : Z := ((z + 2 ^ 63) mod 2 ^ 64 - 2 ^ 63)%Z.

(** The fields of [Config] that [Start] reads, and of [p2p.Server]. *)
Record PeerLimits : Type := mkPeerLimits { LightServ : Z; LightPeers : Z }.
Record Server : Type := mkServer { MaxPeers : Z }.

Inductive startError : Type :=
  | ErrInvalidPeerConfig (lightPeers maxPeers : Z).

Inductive startCall : Type :=
  | CallStartBloomHandlers
  | CallNewPublicNetAPI (netVersion : Z)
  | CallProtocolManagerStart (maxPeers : Z)
  | CallLesServerStart.

(** [Atlantis.Start]: its result and the calls it makes, in program
    order. *)
Definition Start {CI : Type} (limits : PeerLimits) (srvr : Server)
    (s : Node.Atlantis (CI := CI)) : option startError * list startCall :=
  let log := [CallStartBloomHandlers; CallNewPublicNetAPI (Node.networkId s)] in
  let finish (maxPeers : Z) :=
    (None,
     log ++ [CallProtocolManagerStart maxPeers]
         ++ (if Node.lesServer s then [CallLesServerStart] else [])) in
  if bool_decide (LightServ limits > 0)%Z then
    if bool_decide (LightPeers limits >= MaxPeers srvr)%Z
    then (Some (ErrInvalidPeerConfig (LightPeers limits) (MaxPeers srvr)), log)
    else finish (int (MaxPeers srvr - LightPeers limits))
  else finish (MaxPeers srvr).

End Service.

(** ** The rest of the full node API backend ([eth/api_backend.go]) *)

Module EthApi.

(** Of [types.Receipt], the logs; a log is left abstract. *)
Record Receipt : Type := mkReceipt { Logs : list Z }.

(** What the backend reads of the chain database through [rawdb]: the
    number of the header with a hash, and the receipts of the block with
    a hash and a number; a missing entry reads as nil. *)
Record ChainDb : Type := mkChainDb {
  headerNumbers : gmap Z Z;
  blockReceipts : gmap (Z * Z) (list Receipt)
}.

Definition ReadHeaderNumber (db : ChainDb) (hash : Z) : option Z :=
  headerNumbers db !! hash.

Definition ReadReceipts (db : ChainDb) (hash number : Z) : option (list Receipt) :=
  blockReceipts db !! (hash, number).

(** [EthAPIBackend.GetReceipts]; the error returned is always nil. *)
Definition GetReceipts (db : ChainDb) (hash : Z) : option (list Receipt) :=
  match ReadHeaderNumber db hash with
  | Some number => ReadReceipts db hash number
  | None => None
  end.

(** [EthAPIBackend.GetLogs]; the error returned is always nil. *)
Definition GetLogs (db : ChainDb) (hash : Z) : option (list (list Z)) :=
  match ReadHeaderNumber db hash with
  | None => None
  | Some number =>
      match ReadReceipts db hash number with
      | None => None
      | Some receipts => Some ((λ receipt, Logs receipt) <$> receipts)
      end
  end.

Inductive poolError : Type := PoolError (reason : string).

(** [EthAPIBackend.GetPoolTransactions]: [pending] is what
    [txPool.Pending()] returns; [order] is the order in which the
    [range] over the map visits its entries, which Go leaves open. *)
Definition GetPoolTransactions (pending : gmap Z (list Z) + poolError)
    (order : list (Z * list Z)) : list Z * option poolError :=
  match pending with
  | inr err => ([], Some err)
  | inl _ => (foldl (λ txs entry, txs ++ entry.2) [] order, None)
  end.

Record Header : Type := mkHeader { Number : Z; Root : Z }.

Inductive stateError : Type := StateError (reason : string).

(** What the backend reads of the miner and of the block chain; states
    are left abstract. *)
Record Chain : Type := mkChain {
  pendingHeader : Header;
  pendingState : Z;
  currentHeader : Header;
  GetHeaderByNumber : Z → option Header;
  StateAt : Z → option Z * option stateError
}.

Section BlockNumbers.

(** [rpc.PendingBlockNumber] and [rpc.LatestBlockNumber], declared
    outside the examined sources. *)
Variables PendingBlockNumber LatestBlockNumber : Z.

(** [EthAPIBackend.HeaderByNumber]; [uint64(blockNr)] wraps a negative
    number around. *)
Definition HeaderByNumber (c : Chain) (blockNr : Z)
  : option Header * option stateError :=
  if bool_decide (blockNr = PendingBlockNumber) then (Some (pendingHeader c), None)
  else if bool_decide (blockNr = LatestBlockNumber) then (Some (currentHeader c), None)
  else (GetHeaderByNumber c (blockNr mod 2 ^ 64)%Z, None).

(** [EthAPIBackend.StateAndHeaderByNumber]. *)
Definition StateAndHeaderByNumber (c : Chain) (blockNr : Z)
  : option Z * option Header * option stateError :=
  if bool_decide (blockNr = PendingBlockNumber)
  then (Some (pendingState c), Some (pendingHeader c), None)
  else
    match HeaderByNumber c blockNr with
    | (Some header, None) =>
        let '(stateDb, err) := StateAt c (Root header) in
        (stateDb, Some header, err)
    | (_, err) => (None, None, err)
    end.

End BlockNumbers.

End EthApi.

(** *** Bit-level facts *)

#[local] Arguments Nat.div : simpl never.
#[local] Arguments Nat.modulo : simpl never.

Ltac bool_tidy :=
  cbn [andb orb];
  rewrite ?andb_false_r, ?andb_true_r, ?orb_false_r, ?orb_true_r;
  cbn [andb orb]; try done.

Lemma testbit_one_shiftl (k n : Z) :
  (0 ≤ k)%Z → (0 ≤ n)%Z → Z.testbit (Z.shiftl 1 k) n = bool_decide (n = k).
Proof.
  intros Hk Hn. rewrite Z.shiftl_1_l.
  case_bool_decide as E.
  - subst. apply Z.pow2_bits_true; lia.
  - apply Z.pow2_bits_false; lia.
Qed.

Lemma land_one_shiftl_eqb (b k : Z) :
  (0 ≤ k)%Z → (Z.land b (Z.shiftl 1 k) =? 0)%Z = negb (Z.testbit b k).
Proof.
  intros Hk. destruct (Z.testbit b k) eqn:E; simpl.
  - apply Z.eqb_neq. intros H0.
    assert (Z.testbit (Z.land b (Z.shiftl 1 k)) k = true) as Ht.
    { rewrite Z.land_spec, E, testbit_one_shiftl by lia.
      by rewrite bool_decide_eq_true_2. }
    rewrite H0, Z.bits_0 in Ht. discriminate.
  - apply Z.eqb_eq. apply Z.bits_inj'. intros n Hn.
    rewrite Z.land_spec, Z.bits_0, testbit_one_shiftl by lia.
    case_bool_decide; subst; [by rewrite E | apply andb_false_r].
Qed.

Lemma byteBit_testbit (byte : Z) (k : nat) :
  Codec.byteBit byte k = Z.testbit byte (Z.of_nat (7 - k)).
Proof.
  unfold Codec.byteBit. rewrite land_one_shiftl_eqb by lia. apply negb_involutive.
Qed.

Lemma byteBit_lor_mask (byte : Z) (j k : nat) :
  j < 8 → k < 8 →
  Codec.byteBit (Z.lor (Z.shiftl 1 (Z.of_nat (7 - j))) byte) k
  = bool_decide (k = j) || Codec.byteBit byte k.
Proof.
  intros Hj Hk. rewrite !byteBit_testbit, Z.lor_spec, testbit_one_shiftl by lia.
  f_equal. apply bool_decide_ext. lia.
Qed.

Lemma testBit_setBit (frag : list Z) (j i : nat) :
  j / 8 < length frag →
  Codec.testBit (Codec.setBit j frag) i
  = bool_decide (i = j) || Codec.testBit frag i.
Proof.
  intros Hlen. unfold Codec.testBit, Codec.setBit, Codec.bitMask.
  assert (j mod 8 < 8) by (apply Nat.mod_upper_bound; lia).
  assert (i mod 8 < 8) by (apply Nat.mod_upper_bound; lia).
  destruct (decide (i / 8 = j / 8)) as [E|E].
  - rewrite E, list_lookup_alter_eq.
    destruct (lookup_lt_is_Some_2 frag (j / 8) Hlen) as [byte Hb].
    rewrite Hb. cbn -[Nat.modulo Nat.div]. rewrite byteBit_lor_mask by done.
    f_equal. apply bool_decide_ext.
    pose proof (Nat.div_mod_eq i 8). pose proof (Nat.div_mod_eq j 8). lia.
  - rewrite list_lookup_alter_ne by done.
    rewrite bool_decide_eq_false_2; [done | intros ->; done].
Qed.

(** *** The codec: shape of the planes and the encode/test round trip *)

Lemma addBlock_planes_length (st : Codec.state) (bloom : Bloom.t) :
  length (Codec.planes (Codec.addBlock st bloom)) = length (Codec.planes st).
Proof. unfold Codec.addBlock; simpl. apply length_imap. Qed.

Lemma setBit_length (j : nat) (frag : list Z) :
  length (Codec.setBit j frag) = length frag.
Proof. unfold Codec.setBit. apply length_alter. Qed.

Lemma addBlock_lookup (st : Codec.state) (bloom : Bloom.t) (bitIndex : nat) :
  Codec.planes (Codec.addBlock st bloom) !! bitIndex
  = (λ frag, if Bloom.test bloom bitIndex
             then Codec.setBit (Codec.nextOffset st) frag else frag)
    <$> Codec.planes st !! bitIndex.
Proof. unfold Codec.addBlock; simpl. apply list_lookup_imap. Qed.

Lemma foldl_addBlock_nextOffset (bl : list Bloom.t) (st : Codec.state) :
  Codec.nextOffset (foldl Codec.addBlock st bl) = Codec.nextOffset st + length bl.
Proof.
  revert st. induction bl as [|b bl IH]; intros st; simpl; [lia|].
  rewrite IH. simpl. lia.
Qed.

(** Folding a run of blocks into a state: every plane keeps its length,
    and bit [i] of plane [bitIndex] is the old bit, or the bloom bit of
    the block of the run that sits at offset [i]. *)
Lemma foldl_addBlock_spec (bl : list Bloom.t) (st : Codec.state)
    (bitIndex n : nat) (frag : list Z) :
  Codec.planes st !! bitIndex = Some frag →
  length frag = n →
  (Codec.nextOffset st + length bl + 7) / 8 ≤ n →
  ∃ frag', Codec.planes (foldl Codec.addBlock st bl) !! bitIndex = Some frag'
    ∧ length frag' = n
    ∧ ∀ i, Codec.testBit frag' i
         = Codec.testBit frag i
           || (bool_decide (Codec.nextOffset st ≤ i)
               && from_option (λ bloom, Bloom.test bloom bitIndex) false
                    (bl !! (i - Codec.nextOffset st))).
Proof.
  revert st frag. induction bl as [|b bl IH]; intros st frag Hfrag Hlen Hcap.
  - exists frag. split_and!; [done..|]. intros i.
    rewrite lookup_nil. simpl. by rewrite andb_false_r, orb_false_r.
  - simpl in Hcap. simpl foldl.
    set (o := Codec.nextOffset st) in *.
    set (frag1 := if Bloom.test b bitIndex then Codec.setBit o frag else frag).
    assert (Codec.planes (Codec.addBlock st b) !! bitIndex = Some frag1) as H1.
    { rewrite addBlock_lookup, Hfrag. done. }
    assert (length frag1 = n) as Hlen1.
    { unfold frag1. destruct (Bloom.test b bitIndex); [|done].
      by rewrite setBit_length. }
    destruct (IH (Codec.addBlock st b) frag1 H1 Hlen1) as (frag' & Hl & Hn & Hbits).
    { replace (Codec.nextOffset (Codec.addBlock st b) + length bl + 7)
        with (o + S (length bl) + 7) by (simpl; lia). done. }
    exists frag'. split_and!; [done..|]. intros i. rewrite Hbits.
    change (Codec.nextOffset (Codec.addBlock st b)) with (S o).
    assert (o / 8 < length frag) as Hin.
    { rewrite Hlen. eapply Nat.lt_le_trans; [|exact Hcap].
      apply Nat.Div0.div_lt_upper_bound.
      pose proof (Nat.div_mod_eq (o + S (length bl) + 7) 8).
      pose proof (Nat.mod_upper_bound (o + S (length bl) + 7) 8).
      lia. }
    assert (Codec.testBit frag1 i
            = Codec.testBit frag i
              || (Bloom.test b bitIndex && bool_decide (i = o))) as ->.
    { unfold frag1. destruct (Bloom.test b bitIndex); simpl.
      - rewrite testBit_setBit by done. apply orb_comm.
      - by rewrite orb_false_r. }
    destruct (decide (i < o)) as [Hlt|Hge].
    { rewrite !bool_decide_eq_false_2 by lia. bool_tidy. }
    destruct (decide (i = o)) as [->|Hne].
    { rewrite Nat.sub_diag. simpl.
      rewrite (bool_decide_eq_false_2 (S o ≤ o)) by lia.
      rewrite !bool_decide_eq_true_2 by lia. bool_tidy. }
    replace (i - o) with (S (i - S o)) by lia. simpl.
    rewrite (bool_decide_eq_false_2 (i = o)) by done.
    rewrite !bool_decide_eq_true_2 by lia. bool_tidy.
Qed.

Lemma fragmentBytes_multiple (sectionSize : nat) :
  sectionSize mod 8 = 0 → Codec.fragmentBytes sectionSize = sectionSize / 8.
Proof.
  intros Hm. unfold Codec.fragmentBytes.
  pose proof (Nat.div_mod_eq sectionSize 8) as Hd. rewrite Hm in Hd.
  symmetry. apply (Nat.div_unique _ 8 _ 7); lia.
Qed.

Lemma testBit_zeros (n i : nat) : Codec.testBit (replicate n 0%Z) i = false.
Proof.
  unfold Codec.testBit. destruct (replicate n 0%Z !! (i / 8)) as [b|] eqn:E; [|done].
  apply lookup_replicate in E as [-> _]. unfold Codec.byteBit.
  by rewrite Z.land_0_l.
Qed.

Lemma encode_lookup (sectionSize : nat) (bl : list Bloom.t) (bitIndex : nat) :
  bitIndex < Bloom.BloomBitLength →
  length bl ≤ sectionSize →
  ∃ frag, Codec.encode sectionSize bl !! bitIndex = Some frag
    ∧ length frag = Codec.fragmentBytes sectionSize
    ∧ ∀ i, Codec.testBit frag i
         = match bl !! i with
           | Some bloom => Bloom.test bloom bitIndex
           | None => false
           end.
Proof.
  intros Hbit Hlen.
  destruct (foldl_addBlock_spec bl (Codec.start sectionSize) bitIndex
              (Codec.fragmentBytes sectionSize)
              (replicate (Codec.fragmentBytes sectionSize) 0%Z))
    as (frag & Hl & Hn & Hbits).
  - unfold Codec.start. cbn [Codec.planes]. by apply lookup_replicate_2.
  - apply length_replicate.
  - unfold Codec.start. cbn [Codec.nextOffset]. unfold Codec.fragmentBytes.
    apply Nat.Div0.div_le_mono. lia.
  - exists frag. split_and!; [done..|]. intros i. rewrite Hbits.
    unfold Codec.start. cbn [Codec.nextOffset].
    rewrite Nat.sub_0_r, testBit_zeros, bool_decide_eq_true_2 by lia.
    by destruct (bl !! i).
Qed.

(** C2. Encode/test round trip: for the ordered bloom filters of one
    section, every bit index below 2048 and every block offset [i] of
    the section, the fragment that [encode] produces for the bit index
    has, at byte [i / 8] and bit [i mod 8] of that byte, exactly the bit
    [bitIndex] of the [i]-th block's bloom filter. *)
Theorem encode_test_roundtrip (sectionSize : nat) (sectionBlooms : list Bloom.t)
    (bitIndex i : nat) :
  length sectionBlooms = sectionSize →
  bitIndex < 2048 →
  i < sectionSize →
  ∃ frag byte bloom,
    Codec.encode sectionSize sectionBlooms !! bitIndex = Some frag
    ∧ frag !! (i / 8) = Some byte
    ∧ sectionBlooms !! i = Some bloom
    ∧ Codec.byteBit byte (i mod 8) = Bloom.test bloom bitIndex
    ∧ Codec.testBit frag i = Bloom.test bloom bitIndex.
Proof.
  intros Hlen Hbit Hi.
  destruct (encode_lookup sectionSize sectionBlooms bitIndex) as (frag & Hl & Hn & Hbits);
    [done | lia |].
  destruct (lookup_lt_is_Some_2 sectionBlooms i) as [bloom Hb]; [lia|].
  destruct (lookup_lt_is_Some_2 frag (i / 8)) as [byte Hbyte].
  { rewrite Hn. unfold Codec.fragmentBytes.
    apply Nat.Div0.div_lt_upper_bound.
    pose proof (Nat.div_mod_eq (sectionSize + 7) 8).
    pose proof (Nat.mod_upper_bound (sectionSize + 7) 8). lia. }
  exists frag, byte, bloom. split_and!; try done.
  - specialize (Hbits i). unfold Codec.testBit in Hbits.
    by rewrite Hbyte, Hb in Hbits.
  - by rewrite Hbits, Hb.
Qed.



(** ** The node services *)

Ltac call_mem :=
  repeat first [apply list_elem_of_here | apply list_elem_of_further].

Ltac call_mem_inv H :=
  repeat (apply elem_of_cons in H as [H|H]; [by simplify_eq|]);
  by apply elem_of_nil in H.

Ltac run_New :=
  unfold Node.NewResult, Node.New, Node.CreateDB, Node.when, Node.fail,
    Node.emit, mbind, mret, Node.M_bind, Node.M_ret in *.

Section NodeFacts.

Context {CI : Type} {API : ChainIndexerAPI CI Node.Database}.
Variable LightSync : Node.SyncMode.
Variable IsValid : Node.SyncMode → bool.
Variables BloomBitsBlocks BlockChainVersion BloomTrieFrequency : Z.

(** C8. [New] returns an error and no service object when the sync mode
    is [LightSync], and when the sync mode is not valid; in both cases
    nothing has been created by then: the log of calls is empty, so the
    chain database was not opened, the bloom-request channel was not
    made and the bloom indexer was not constructed. *)
Theorem New_rejects_light_and_invalid_sync_mode (w : Node.World) (cfg : Node.Config) :
  Node.cfgSyncMode cfg = LightSync ∨ IsValid (Node.cfgSyncMode cfg) = false →
  ∃ e log,
    Node.NewResult LightSync IsValid BloomBitsBlocks BlockChainVersion w cfg
    = (None, Some e, log)
    ∧ (e = Node.ErrLightSync ∨ e = Node.ErrInvalidSyncMode (Node.cfgSyncMode cfg))
    ∧ (Node.cfgSyncMode cfg = LightSync → e = Node.ErrLightSync)
    ∧ log = []
    ∧ (∀ name, Node.CallOpenDatabase name ∉ log)
    ∧ (Node.CallMakeBloomRequests ∉ log)
    ∧ (∀ size, Node.CallNewBloomIndexer size ∉ log).
Proof.
  intros Hmode. run_New.
  case_bool_decide as Hlight.
  - exists Node.ErrLightSync, [].
    split_and!; auto; first [apply not_elem_of_nil | intros ?; apply not_elem_of_nil].
  - destruct Hmode as [?|Hinv]; [done|]. rewrite Hinv. simpl.
    exists (Node.ErrInvalidSyncMode (Node.cfgSyncMode cfg)), [].
    split_and!; auto; try done;
      first [apply not_elem_of_nil | intros ?; apply not_elem_of_nil].
Qed.

(** A successful construction went through every creation step. *)
Lemma New_success_log (w : Node.World) (cfg : Node.Config) (s : Node.Atlantis)
    (log : list Node.call) :
  Node.NewResult LightSync IsValid BloomBitsBlocks BlockChainVersion w cfg
  = (Some s, None, log) →
  Node.cfgSyncMode cfg ≠ LightSync
  ∧ IsValid (Node.cfgSyncMode cfg) = true
  ∧ Node.CallOpenDatabase "chaindata" ∈ log
  ∧ Node.CallMakeBloomRequests ∈ log
  ∧ Node.CallBloomIndexerStart ∈ log.
Proof.
  run_New. intros Hres.
  repeat (case_match; simplify_eq/=); split_and!; try done;
    try (by apply negb_false_iff);
    try (by eapply bool_decide_eq_false_1); call_mem.
Qed.

(** C9. On every successfully constructed full node, the section size
    that [EthAPIBackend.BloomStatus] reports as its first component is
    the size the bloom indexer of the node was constructed with in
    [New]: the node's indexer is the started
    [NewBloomIndexer chainDb size], and [size] is the one size a
    [NewBloomIndexer] call of the construction was made with. *)
Theorem BloomStatus_size_is_indexer_size (w : Node.World) (cfg : Node.Config)
    (s : Node.Atlantis) (log : list Node.call) :
  Node.NewResult LightSync IsValid BloomBitsBlocks BlockChainVersion w cfg
  = (Some s, None, log) →
  ∃ size sections,
    Node.EthBloomStatus BloomBitsBlocks (Node.APIBackend s) = Some (size, sections)
    ∧ size = BloomBitsBlocks
    ∧ Node.bloomIndexer s = Some (Start (NewBloomIndexer (Node.chainDb s) size))
    ∧ (∀ size', Node.CallNewBloomIndexer size' ∈ log ↔ size' = size).
Proof.
  run_New. intros Hres. unfold Node.EthBloomStatus, Node.APIBackend.
  repeat (case_match; simplify_eq/=);
    (eexists _, _; split_and!; [reflexivity | reflexivity | reflexivity |]);
    intros size'; (split; [intros Hin; call_mem_inv Hin | intros ->; call_mem]).
Qed.

(** C3 (as amended). [BloomStatus] returns the pair (section size,
    stored sections): on a full node with its indexer set, the constant
    [params.BloomBitsBlocks] and the first component of the indexer's
    [Sections()]; on a light node with an indexer,
    [light.BloomTrieFrequency] and the first component of [Sections()].
    The last indexed head is read and dropped. *)
Theorem BloomStatus_reports_size_and_stored
    (b : Node.EthAPIBackend) (lb : Node.LesApiBackend) :
  match Node.bloomIndexer (Node.ath b) with
  | Some ci =>
      Node.EthBloomStatus BloomBitsBlocks b
      = Some (BloomBitsBlocks, (Sections ci).1.1)
  | None => Node.EthBloomStatus BloomBitsBlocks b = None
  end
  ∧ match Node.lesBloomIndexer (Node.lesAth lb) with
    | Some ci =>
        Node.LesBloomStatus BloomTrieFrequency lb
        = Some (BloomTrieFrequency, (Sections ci).1.1)
    | None => Node.LesBloomStatus BloomTrieFrequency lb = Some (0%Z, 0%Z)
    end.
Proof.
  unfold Node.EthBloomStatus, Node.LesBloomStatus. split.
  - destruct (Node.bloomIndexer (Node.ath b)) as [ci|]; [|done].
    by destruct (Sections ci) as [[sections head] cp].
  - destruct (Node.lesBloomIndexer (Node.lesAth lb)) as [ci|]; [|done].
    by destruct (Sections ci) as [[sections head] cp].
Qed.

(** C10. [LesApiBackend.BloomStatus] is total: it always returns a pair.
    With a nil indexer the pair is (0, 0) and the indexer is not
    touched; otherwise it is ([light.BloomTrieFrequency], stored
    sections), the latter being the first component of [Sections()]. *)
Theorem LesBloomStatus_total (lb : Node.LesApiBackend) :
  is_Some (Node.LesBloomStatus BloomTrieFrequency lb)
  ∧ match Node.lesBloomIndexer (Node.lesAth lb) with
    | None => Node.LesBloomStatus BloomTrieFrequency lb = Some (0%Z, 0%Z)
    | Some ci =>
        ∃ sections head cp,
          Sections ci = (sections, head, cp)
          ∧ Node.LesBloomStatus BloomTrieFrequency lb
            = Some (BloomTrieFrequency, sections)
    end.
Proof.
  unfold Node.LesBloomStatus.
  destruct (Node.lesBloomIndexer (Node.lesAth lb)) as [ci|].
  - destruct (Sections ci) as [[sections head] cp]. split; [by eexists|].
    by exists sections, head, cp.
  - split; [by eexists | done].
Qed.

End NodeFacts.

(** The started indexer of a constructed node, seen through the model:
    its section size is the size that [BloomStatus] reports. *)
Lemma constructed_indexer_sectionSize (w : Node.World) (cfg : Node.Config)
    (s : Node.Atlantis) (log : list Node.call) (ix : Indexer.t) :
  Node.NewResult
    Sample.LightSync Sample.IsValid Sample.BloomBitsBlocks
    Sample.BlockChainVersion w cfg = (Some s, None, log) →
  Node.bloomIndexer s = Some ix →
  Indexer.sectionSize ix = 4096.
Proof.
  run_New. intros Hres Hix.
  repeat (case_match; simplify_eq/=); done.
Qed.

Lemma New_rejects_light_and_invalid_sync_mode_witness :
  ∃ e log,
    Node.NewResult
      Sample.LightSync Sample.IsValid Sample.BloomBitsBlocks
      Sample.BlockChainVersion Sample.world (Sample.config 7%Z)
    = (None, Some e, log)
    ∧ (e = Node.ErrLightSync ∨ e = Node.ErrInvalidSyncMode 7%Z)
    ∧ (7%Z = Sample.LightSync → e = Node.ErrLightSync)
    ∧ log = []
    ∧ (∀ name, Node.CallOpenDatabase name ∉ log)
    ∧ (Node.CallMakeBloomRequests ∉ log)
    ∧ (∀ size, Node.CallNewBloomIndexer size ∉ log).
Proof.
  apply (New_rejects_light_and_invalid_sync_mode
           Sample.LightSync Sample.IsValid Sample.BloomBitsBlocks
           Sample.BlockChainVersion Sample.world (Sample.config 7%Z)).
  right. reflexivity.
Defined.

Lemma BloomStatus_size_is_indexer_size_witness :
  ∃ size sections,
    Node.EthBloomStatus Sample.BloomBitsBlocks (Node.APIBackend Sample.freshNode)
    = Some (size, sections)
    ∧ size = Sample.BloomBitsBlocks
    ∧ Node.bloomIndexer Sample.freshNode
      = Some (Start (NewBloomIndexer
                       (Node.chainDb Sample.freshNode) size))
    ∧ (∀ size',
         Node.CallNewBloomIndexer size'
         ∈ (Node.NewResult
              Sample.LightSync Sample.IsValid Sample.BloomBitsBlocks
              Sample.BlockChainVersion Sample.world
              (Sample.config Sample.FastSync)).2
         ↔ size' = size).
Proof.
  apply (BloomStatus_size_is_indexer_size
           Sample.LightSync Sample.IsValid Sample.BloomBitsBlocks
           Sample.BlockChainVersion Sample.world (Sample.config Sample.FastSync)).
  reflexivity.
Defined.

(** C3, counterexample.  On the freshly constructed full node the
    indexer reports no stored section and last head 0, yet
    [BloomStatus] answers (4096, 0): its first component is the section
    size, not the number of stored sections. *)
Lemma BloomStatus_is_not_stored_and_head :
  ∃ ci,
    (Node.NewResult Sample.LightSync Sample.IsValid Sample.BloomBitsBlocks
       Sample.BlockChainVersion Sample.world (Sample.config Sample.FastSync)).1
    = (Some Sample.freshNode, None)
    ∧ Node.bloomIndexer Sample.freshNode = Some ci
    ∧ Sections ci
      = (0%Z, 0%Z, false)
    ∧ Node.EthBloomStatus
        Sample.BloomBitsBlocks (Node.APIBackend Sample.freshNode)
      = Some (4096%Z, 0%Z)
    ∧ Node.EthBloomStatus
        Sample.BloomBitsBlocks (Node.APIBackend Sample.freshNode)
      ≠ Some ((Sections ci).1.1,
              (Sections ci).1.2).
Proof.
  eexists. split; [reflexivity|]. split; [reflexivity|].
  split_and!; [reflexivity | reflexivity |].
  intros Heq. discriminate Heq.
Qed.

(** The same on the index of the scenario, with sections of 4 blocks:
    one section is stored and the last indexed head is block 3, while
    [BloomStatus] answers (4, 1). *)
Lemma BloomStatus_on_scenario :
  Sections Scenario.indexed = (1%Z, 3%Z, true)
  ∧ Node.EthBloomStatus 4%Z (Node.APIBackend Scenario.node) = Some (4%Z, 1%Z).
Proof. split; by vm_compute. Qed.

(** ** The section indexer *)

Lemma section_agree (size : nat) (c c' : Chain.t) (s m : nat) :
  take m c = take m c' → S s * size ≤ m → 0 < size →
  Chain.sectionBlooms size c s = Chain.sectionBlooms size c' s
  ∧ Chain.sectionHead size c s = Chain.sectionHead size c' s.
Proof.
  intros Ht Hm Hsz.
  unfold Chain.sectionBlooms, Chain.sectionBlocks, Chain.sectionHead. split.
  - f_equal. rewrite !take_drop_commute. f_equal.
    assert (∀ l : Chain.t, take (s * size + size) l
                           = take (s * size + size) (take m l)) as E.
    { intros l. rewrite take_take. f_equal. lia. }
    by rewrite (E c), (E c'), Ht.
  - f_equal.
    rewrite <- (lookup_take_lt c m), <- (lookup_take_lt c' m) by lia.
    by rewrite Ht.
Qed.

Lemma section_prefix (size : nat) (c c' : Chain.t) (s : nat) :
  c `prefix_of` c' → S s * size ≤ length c → 0 < size →
  Chain.sectionBlooms size c' s = Chain.sectionBlooms size c s
  ∧ Chain.sectionHead size c' s = Chain.sectionHead size c s.
Proof.
  intros [k ->] Hlen Hsz. apply (section_agree size _ _ s (length c)); [|done..].
  by rewrite take_app_length, firstn_all.
Qed.

Lemma sectionHead_is_Some (size : nat) (c : Chain.t) (s : nat) :
  S s * size ≤ length c → 0 < size → is_Some (Chain.sectionHead size c s).
Proof.
  intros Hlen Hsz. unfold Chain.sectionHead.
  destruct (lookup_lt_is_Some_2 c (s * size + (size - 1))) as [b Hb]; [lia|].
  rewrite Hb. by eexists.
Qed.

Lemma sectionBlooms_length (size : nat) (c : Chain.t) (s : nat) :
  length (Chain.sectionBlooms size c s) ≤ size.
Proof.
  unfold Chain.sectionBlooms, Chain.sectionBlocks.
  rewrite length_fmap, length_take. lia.
Qed.

Lemma sectionPlanes_is_Some (ix : Indexer.t) (s bit : nat) :
  bit < Bloom.BloomBitLength → is_Some (Indexer.sectionPlanes ix s !! bit).
Proof.
  intros Hbit. unfold Indexer.sectionPlanes.
  destruct (encode_lookup (Indexer.sectionSize ix)
              (Chain.sectionBlooms (Indexer.sectionSize ix) (Indexer.canon ix) s) bit)
    as (frag & Hf & _); [done | apply sectionBlooms_length |].
  by eexists.
Qed.

Lemma Inv_new (size confirms : nat) : Indexer.Inv (Indexer.new size confirms).
Proof.
  split; simpl; try (intros; lia); try done.
Qed.

Lemma Inv_setStarted (b : bool) (ix : Indexer.t) :
  Indexer.Inv ix → Indexer.Inv (Indexer.setStarted b ix).
Proof. by intros []. Qed.

Lemma Inv_setClosed (b : bool) (ix : Indexer.t) :
  Indexer.Inv ix → Indexer.Inv (Indexer.setClosed b ix).
Proof. by intros []. Qed.

Lemma Inv_abort (ix : Indexer.t) : Indexer.Inv ix → Indexer.Inv (Indexer.abort ix).
Proof. intros []. by split. Qed.

Lemma Inv_head (c : Chain.t) (ix : Indexer.t) :
  Indexer.canon ix `prefix_of` c →
  Indexer.Inv ix → Indexer.Inv (Indexer.setCanon c ix).
Proof.
  intros Hpre [H1 H2 H3 H4 H5].
  pose proof (prefix_length _ _ Hpre) as Hlen.
  assert (∀ s, S s * Indexer.sectionSize ix ≤ length (Indexer.canon ix) →
               0 < Indexer.sectionSize ix →
               Indexer.sectionPlanes (Indexer.setCanon c ix) s
               = Indexer.sectionPlanes ix s
               ∧ Chain.sectionHead (Indexer.sectionSize ix) c s
                 = Chain.sectionHead (Indexer.sectionSize ix) (Indexer.canon ix) s)
    as Hsame.
  { intros s Hs Hsz. unfold Indexer.sectionPlanes. simpl.
    destruct (section_prefix _ _ _ s Hpre Hs Hsz) as [-> ->]. done. }
  split; simpl.
  - intros s Hs. destruct (H1 s Hs). split; [lia | done].
  - intros s Hs. destruct (H1 s Hs) as [Ha Hb].
    destruct (Hsame s Ha Hb) as [_ ->]. by apply H2.
  - done.
  - intros s bit h Hs Hbit Hh. destruct (H1 s Hs) as [Ha Hb].
    destruct (Hsame s Ha Hb) as [-> Hhd]. rewrite Hhd in Hh. by apply H4.
  - intros s k Hin. destruct (H5 s k Hin) as (-> & Hk & Ha & Hb & Hfr).
    split_and!; [done | done | lia | done |].
    intros bit h Hbit Hh.
    destruct (Hsame _ Ha Hb) as [-> Hhd]. rewrite Hhd in Hh. by apply Hfr.
Qed.

Lemma div_bound (a size n : nat) : n < a / size → 0 < size ∧ S n * size ≤ a.
Proof.
  intros Hn. destruct size as [|size]; [rewrite Nat.div_0_r in Hn; lia|]. split; [lia|].
  pose proof (Nat.Div0.mul_div_le a (S size)). nia.
Qed.

Lemma Inv_reorg (N : nat) (c : Chain.t) (ix : Indexer.t) :
  N < length c → take (S N) c = take (S N) (Indexer.canon ix) →
  Indexer.Inv ix → Indexer.Inv (Indexer.reorg N c ix).
Proof.
  intros HN Hcommon [H1 H2 H3 H4 H5].
  set (keep := Indexer.keptSections ix N).
  assert (∀ s, s < keep → 0 < Indexer.sectionSize ix
                          ∧ S s * Indexer.sectionSize ix ≤ S N) as Hkeep.
  { intros s Hs. by apply div_bound. }
  assert (∀ s, s < keep →
               Indexer.sectionPlanes (Indexer.reorg N c ix) s
               = Indexer.sectionPlanes ix s
               ∧ Chain.sectionHead (Indexer.sectionSize ix) c s
                 = Chain.sectionHead (Indexer.sectionSize ix) (Indexer.canon ix) s)
    as Hsame.
  { intros s Hs. destruct (Hkeep s Hs) as [Hsz Hle].
    unfold Indexer.sectionPlanes. simpl.
    destruct (section_agree _ _ _ s (S N) Hcommon Hle Hsz) as [-> ->]. done. }
  split; simpl; fold keep.
  - intros s Hs. destruct (Hkeep s) as [Hsz Hle]; [lia|]. split; [lia | done].
  - intros s Hs. destruct (Hsame s) as [_ ->]; [lia|].
    assert (s < Indexer.storedSections ix) as Hst by lia.
    destruct (H1 s Hst) as [Ha Hb].
    destruct (sectionHead_is_Some _ _ s Ha Hb) as [h Hh].
    rewrite Hh. apply map_lookup_filter_Some_2; [|simpl; lia].
    by rewrite H2, Hh.
  - intros s Hs. apply map_lookup_filter_None_2.
    destruct (decide (Indexer.storedSections ix ≤ s)) as [Hge|Hlt].
    + left. by apply H3.
    + right. intros h _. simpl. lia.
  - intros s bit h Hs Hbit Hh. destruct (Hsame s) as [-> Hhd]; [lia|].
    rewrite Hhd in Hh. apply H4; [lia | done..].
  - intros s k Hin.
    destruct (Indexer.inflight ix) as [[s0 k0]|] eqn:E; [|done].
    case_bool_decide as Hlt; [|done]. simplify_eq.
    destruct (H5 s k eq_refl) as (-> & Hk & Ha & Hb & Hfr).
    destruct (Hkeep _ Hlt) as [_ Hle].
    split_and!; [lia | done | lia | done |].
    intros bit h Hbit Hh. destruct (Hsame _ Hlt) as [-> Hhd].
    rewrite Hhd in Hh. by apply Hfr.
Qed.

Lemma Inv_begin (ix : Indexer.t) :
  Indexer.inflight ix = None →
  Indexer.storedSections ix < Indexer.indexable ix →
  Indexer.Inv ix → Indexer.Inv (Indexer.begin ix).
Proof.
  intros Hnone Hlt [H1 H2 H3 H4 H5]. split; simpl; try done.
  intros s k [= <- <-].
  destruct (div_bound _ _ _ Hlt) as [Hsz Hle].
  split_and!; [done | lia | lia | done |]. intros bit h Hbit. lia.
Qed.

Lemma Inv_writePlane (s k : nat) (ix : Indexer.t) :
  Indexer.inflight ix = Some (s, k) → k < Bloom.BloomBitLength →
  Indexer.Inv ix → Indexer.Inv (Indexer.writePlane s k ix).
Proof.
  intros Hin Hk [H1 H2 H3 H4 H5].
  destruct (H5 s k Hin) as (-> & _ & Ha & Hb & Hfr).
  destruct (sectionHead_is_Some _ _ _ Ha Hb) as [h Hh].
  destruct (sectionPlanes_is_Some ix (Indexer.storedSections ix) k Hk) as [frag Hf].
  unfold Indexer.writePlane, Indexer.storePlane. rewrite Hh, Hf.
  split; simpl; try done.
  - intros s bit h' Hs Hbit Hh'.
    rewrite lookup_insert_ne by (intros [= ? ? ?]; lia).
    by apply H4.
  - intros s k' [= <- <-]. split_and!; [done | lia | done | done |].
    intros bit h' Hbit Hh'. rewrite Hh in Hh'. simplify_eq.
    destruct (decide (bit = k)) as [->|Hne].
    + rewrite lookup_insert_eq. by rewrite <- Hf.
    + rewrite lookup_insert_ne by (intros [= ?]; lia).
      apply Hfr; [lia | done].
Qed.

Lemma Inv_commit (s : nat) (ix : Indexer.t) :
  Indexer.inflight ix = Some (s, Bloom.BloomBitLength) →
  Indexer.Inv ix → Indexer.Inv (Indexer.commit s ix).
Proof.
  intros Hin [H1 H2 H3 H4 H5].
  destruct (H5 s _ Hin) as (-> & _ & Ha & Hb & Hfr).
  destruct (sectionHead_is_Some _ _ _ Ha Hb) as [h Hh].
  unfold Indexer.commit. rewrite Hh.
  split; simpl; try done.
  - intros s Hs. destruct (decide (s = Indexer.storedSections ix)) as [->|Hne]; [done|].
    apply H1. lia.
  - intros s Hs. destruct (decide (s = Indexer.storedSections ix)) as [->|Hne].
    + by rewrite lookup_insert_eq.
    + rewrite lookup_insert_ne by done. apply H2. lia.
  - intros s Hs. rewrite lookup_insert_ne by lia. apply H3. lia.
  - intros s bit h' Hs Hbit Hh'.
    destruct (decide (s = Indexer.storedSections ix)) as [->|Hne].
    + by apply Hfr.
    + apply H4; [lia | done..].
Qed.

Lemma Inv_work (ix ix' : Indexer.t) :
  Indexer.work ix ix' → Indexer.Inv ix → Indexer.Inv ix'.
Proof.
  intros [ix0 s k Hin Hk | ix0 s Hin | ix0 s k Hin] HI.
  - by apply Inv_writePlane.
  - by apply Inv_commit.
  - by apply Inv_abort.
Qed.

Lemma Inv_step (ix ix' : Indexer.t) :
  Indexer.step ix ix' → Indexer.Inv ix → Indexer.Inv ix'.
Proof.
  intros [ix0 ix1 Hw | ix0 ix1 Hb | ix0 c _ _ Hpre | ix0 N c _ _ HN Hc | ix0 | ix0] HI.
  - by eapply Inv_work.
  - destruct Hb. by apply Inv_begin.
  - by apply Inv_head.
  - by apply Inv_reorg.
  - by apply Inv_setStarted.
  - by apply Inv_setClosed.
Qed.

Lemma Inv_rtc_step (ix ix' : Indexer.t) :
  rtc Indexer.step ix ix' → Indexer.Inv ix → Indexer.Inv ix'.
Proof. induction 1; eauto using Inv_step. Qed.

Lemma reachable_Inv (ix : Indexer.t) : Indexer.reachable ix → Indexer.Inv ix.
Proof.
  intros (size & confirms & Hrun). eapply Inv_rtc_step; [done|]. apply Inv_new.
Qed.

Lemma reachable_step (ix ix' : Indexer.t) :
  Indexer.reachable ix → rtc Indexer.step ix ix' → Indexer.reachable ix'.
Proof.
  intros (size & confirms & Hrun) Hstep. exists size, confirms. by etrans.
Qed.

Lemma processing_step (ix ix' : Indexer.t) :
  Indexer.processing ix ix' → Indexer.step ix ix'.
Proof. intros [Hw|Hb]; [by apply Indexer.step_work | by apply Indexer.step_begin]. Qed.

Lemma rtc_processing_step (ix ix' : Indexer.t) :
  rtc Indexer.processing ix ix' → rtc Indexer.step ix ix'.
Proof. apply rtc_subrel. exact processing_step. Qed.

(** What a fetch through the local store returns for a Stored section. *)
Lemma Inv_localFetch (ix : Indexer.t) (s bit : nat) :
  Indexer.Inv ix → s < Indexer.storedSections ix → bit < Bloom.BloomBitLength →
  ∃ h frag,
    Indexer.checkpoints ix !! s = Some h
    ∧ Indexer.fragments ix !! (bit, s, h) = Some frag
    ∧ Indexer.sectionPlanes ix s !! bit = Some frag
    ∧ Indexer.localFetch ix bit s = Some frag.
Proof.
  intros [H1 H2 H3 H4 H5] Hs Hbit.
  destruct (H1 s Hs) as [Ha Hb].
  destruct (sectionHead_is_Some _ _ _ Ha Hb) as [h Hh].
  destruct (sectionPlanes_is_Some ix s bit Hbit) as [frag Hf].
  exists h, frag. unfold Indexer.localFetch.
  rewrite (H2 s Hs), Hh. simpl. rewrite (H4 s bit h Hs Hbit Hh). done.
Qed.

Lemma Inv_localFetch_None (ix : Indexer.t) (s bit : nat) :
  Indexer.Inv ix → Indexer.storedSections ix ≤ s →
  Indexer.localFetch ix bit s = None.
Proof.
  intros HI Hs. unfold Indexer.localFetch. by rewrite (Indexer.inv_no_checkpoint _ HI s Hs).
Qed.



Lemma work_untouched (ix ix' : Indexer.t) :
  Indexer.work ix ix' → Indexer.Inv ix → Indexer.untouched ix ix'.
Proof.
  intros [ix0 s k Hin Hk | ix0 s Hin | ix0 s k Hin] HI.
  - destruct (Indexer.inv_inflight _ HI s k Hin) as (-> & _).
    unfold Indexer.writePlane, Indexer.storePlane, Indexer.untouched.
    repeat case_match; simpl; split_and!; auto.
    intros s Hs. split; [done|]. intros bit h'.
    apply lookup_insert_ne. intros [= ? ? ?]. lia.
  - destruct (Indexer.inv_inflight _ HI s _ Hin) as (-> & _).
    unfold Indexer.commit, Indexer.untouched.
    case_match; simpl; split_and!; auto.
    intros s Hs. split; [|done]. apply lookup_insert_ne. lia.
  - unfold Indexer.abort, Indexer.untouched. simpl. split_and!; auto.
Qed.



(** *** Processing whole sections is a run of the transition system *)

#[local] Arguments Indexer.processSection : simpl never.
#[local] Arguments Indexer.update : simpl never.

Lemma writePlane_fields (s k : nat) (ix : Indexer.t) :
  Indexer.sectionSize (Indexer.writePlane s k ix) = Indexer.sectionSize ix
  ∧ Indexer.confirmationDepth (Indexer.writePlane s k ix) = Indexer.confirmationDepth ix
  ∧ Indexer.canon (Indexer.writePlane s k ix) = Indexer.canon ix
  ∧ Indexer.started (Indexer.writePlane s k ix) = Indexer.started ix
  ∧ Indexer.closed (Indexer.writePlane s k ix) = Indexer.closed ix
  ∧ Indexer.storedSections (Indexer.writePlane s k ix) = Indexer.storedSections ix
  ∧ Indexer.inflight (Indexer.writePlane s k ix) = Some (s, S k).
Proof.
  unfold Indexer.writePlane, Indexer.storePlane. by repeat case_match.
Qed.

Lemma writes_run (s : nat) (planes : list (list Z)) (n : nat) :
  ∀ (k0 : nat) (ix : Indexer.t),
    Indexer.inflight ix = Some (s, k0) →
    k0 + n ≤ Bloom.BloomBitLength →
    planes = Indexer.sectionPlanes ix s →
    let ix' := foldl (λ acc k, Indexer.storePlane s k planes acc) ix (seq k0 n) in
    rtc Indexer.processing ix ix'
    ∧ Indexer.inflight ix' = Some (s, k0 + n)
    ∧ Indexer.sectionSize ix' = Indexer.sectionSize ix
    ∧ Indexer.confirmationDepth ix' = Indexer.confirmationDepth ix
    ∧ Indexer.canon ix' = Indexer.canon ix
    ∧ Indexer.started ix' = Indexer.started ix
    ∧ Indexer.closed ix' = Indexer.closed ix
    ∧ Indexer.storedSections ix' = Indexer.storedSections ix.
Proof.
  induction n as [|n IH]; intros k0 ix Hin Hk Hpl; simpl.
  - rewrite Nat.add_0_r. split_and!; done.
  - destruct (writePlane_fields s k0 ix) as (F1 & F2 & F3 & F4 & F5 & F6 & F7).
    assert (Indexer.storePlane s k0 planes ix = Indexer.writePlane s k0 ix) as Hw.
    { by rewrite Hpl. }
    rewrite Hw.
    destruct (IH (S k0) (Indexer.writePlane s k0 ix)) as (R & G1 & G2 & G3 & G4 & G5 & G6 & G7).
    + done.
    + lia.
    + rewrite Hpl. unfold Indexer.sectionPlanes. by rewrite F1, F3.
    + split_and!; try congruence.
      * eapply rtc_l; [|exact R]. left. apply Indexer.work_write; [done | lia].
      * rewrite G1. f_equal. f_equal. lia.
Qed.

Lemma commit_fields (s : nat) (ix : Indexer.t) (h : Z) :
  Chain.sectionHead (Indexer.sectionSize ix) (Indexer.canon ix) s = Some h →
  Indexer.inflight (Indexer.commit s ix) = None
  ∧ Indexer.storedSections (Indexer.commit s ix) = S s
  ∧ Indexer.sectionSize (Indexer.commit s ix) = Indexer.sectionSize ix
  ∧ Indexer.confirmationDepth (Indexer.commit s ix) = Indexer.confirmationDepth ix
  ∧ Indexer.canon (Indexer.commit s ix) = Indexer.canon ix
  ∧ Indexer.started (Indexer.commit s ix) = Indexer.started ix
  ∧ Indexer.closed (Indexer.commit s ix) = Indexer.closed ix.
Proof. intros Hh. unfold Indexer.commit. rewrite Hh. done. Qed.

Lemma processSection_run (ix : Indexer.t) :
  Indexer.started ix = true → Indexer.closed ix = false →
  Indexer.inflight ix = None →
  Indexer.storedSections ix < Indexer.indexable ix →
  rtc Indexer.processing ix (Indexer.processSection ix)
  ∧ Indexer.inflight (Indexer.processSection ix) = None
  ∧ Indexer.storedSections (Indexer.processSection ix) = S (Indexer.storedSections ix)
  ∧ Indexer.sectionSize (Indexer.processSection ix) = Indexer.sectionSize ix
  ∧ Indexer.confirmationDepth (Indexer.processSection ix) = Indexer.confirmationDepth ix
  ∧ Indexer.canon (Indexer.processSection ix) = Indexer.canon ix
  ∧ Indexer.started (Indexer.processSection ix) = Indexer.started ix
  ∧ Indexer.closed (Indexer.processSection ix) = Indexer.closed ix.
Proof.
  intros Hst Hcl Hnone Hlt. unfold Indexer.processSection.
  set (s := Indexer.storedSections ix).
  destruct (writes_run s (Indexer.sectionPlanes ix s) Bloom.BloomBitLength 0
              (Indexer.begin ix))
    as (R & G1 & G2 & G3 & G4 & G5 & G6 & G7); [done | exact (le_n _) | done |].
  cbv zeta.
  generalize dependent (foldl (λ acc k, Indexer.storePlane s k (Indexer.sectionPlanes ix s) acc)
       (Indexer.begin ix) (seq 0 Bloom.BloomBitLength)).
  intros ix' R G1 G2 G3 G4 G5 G6 G7.
  destruct (div_bound _ _ _ Hlt) as [Hsz Hle].
  destruct (sectionHead_is_Some (Indexer.sectionSize ix) (Indexer.canon ix) s)
    as [h Hh]; [lia | done |].
  destruct (commit_fields s ix' h) as (K1 & K2 & K3 & K4 & K5 & K6 & K7).
  { rewrite G2, G4. exact Hh. }
  split.
  - eapply rtc_l; [right; by apply Indexer.begins_next|].
    eapply rtc_r; [exact R|]. left. apply Indexer.work_commit. exact G1.
  - rewrite K1, K2, K3, K4, K5, K6, K7, G2, G3, G4, G5, G6. split_and!; reflexivity.
Qed.

Lemma iter_processSection_run (n : nat) (ix : Indexer.t) :
  Indexer.started ix = true → Indexer.closed ix = false →
  Indexer.inflight ix = None →
  n ≤ Indexer.indexable ix - Indexer.storedSections ix →
  let ix' := Nat.iter n Indexer.processSection ix in
  rtc Indexer.processing ix ix'
  ∧ Indexer.inflight ix' = None
  ∧ Indexer.storedSections ix' = Indexer.storedSections ix + n
  ∧ Indexer.sectionSize ix' = Indexer.sectionSize ix
  ∧ Indexer.confirmationDepth ix' = Indexer.confirmationDepth ix
  ∧ Indexer.canon ix' = Indexer.canon ix
  ∧ Indexer.started ix' = Indexer.started ix
  ∧ Indexer.closed ix' = Indexer.closed ix.
Proof.
  intros Hst Hcl Hnone. induction n as [|n IH]; intros Hle; cbv zeta.
  - change (Nat.iter 0 Indexer.processSection ix) with ix.
    rewrite Nat.add_0_r. split_and!; done.
  - rewrite Nat.iter_succ.
    destruct IH as (R & G1 & G2 & G3 & G4 & G5 & G6 & G7); [lia|].
    destruct (processSection_run (Nat.iter n Indexer.processSection ix))
      as (R' & K1 & K2 & K3 & K4 & K5 & K6 & K7); try congruence.
    { unfold Indexer.indexable. rewrite G2, G3, G4, G5.
      fold (Indexer.indexable ix). lia. }
    split_and!; try congruence; [by etrans | lia].
Qed.

Lemma update_run (ix : Indexer.t) :
  Indexer.started ix = true → Indexer.closed ix = false →
  Indexer.inflight ix = None →
  rtc Indexer.processing ix (Indexer.update ix)
  ∧ Indexer.inflight (Indexer.update ix) = None
  ∧ Indexer.storedSections (Indexer.update ix)
    = Indexer.storedSections ix `max` Indexer.indexable ix
  ∧ Indexer.sectionSize (Indexer.update ix) = Indexer.sectionSize ix
  ∧ Indexer.canon (Indexer.update ix) = Indexer.canon ix.
Proof.
  intros Hst Hcl Hnone. unfold Indexer.update.
  destruct (iter_processSection_run
              (Indexer.indexable ix - Indexer.storedSections ix) ix)
    as (R & G1 & G2 & G3 & G4 & G5 & G6 & G7); [done.. | lia |].
  split_and!; [done | done | lia | done | done].
Qed.

Lemma sectionStatus_Stored (ix : Indexer.t) (s : nat) :
  Indexer.sectionStatus ix s = Indexer.Stored ↔ s < Indexer.storedSections ix.
Proof.
  unfold Indexer.sectionStatus. case_bool_decide; [done|].
  split; [|done]. destruct (Indexer.inflight ix) as [[s' k]|]; [|done].
  by case_bool_decide.
Qed.

(** *** Closing the indexer *)

Lemma work_none_rtc (ix ix' : Indexer.t) :
  Indexer.inflight ix = None → rtc Indexer.work ix ix' → ix' = ix.
Proof.
  intros Hnone Hrun. destruct Hrun as [|x y z Hxy _]; [done|].
  destruct Hxy; congruence.
Qed.

Lemma commit_inflight (s : nat) (ix : Indexer.t) :
  Indexer.inflight (Indexer.commit s ix) = None.
Proof. unfold Indexer.commit. by case_match. Qed.

Lemma commit_stored (s : nat) (ix : Indexer.t) :
  Indexer.storedSections (Indexer.commit s ix) = Indexer.storedSections ix
  ∨ Indexer.storedSections (Indexer.commit s ix) = S s.
Proof. unfold Indexer.commit. case_match; simpl; auto. Qed.

(** The runs that [Close] waits for: the unit in flight completes, which
    stores one more section, or it aborts, which stores none. *)
Lemma work_run_outcome (ix ix' : Indexer.t) :
  rtc Indexer.work ix ix' → Indexer.Inv ix →
  Indexer.Inv ix'
  ∧ Indexer.closed ix' = Indexer.closed ix
  ∧ (Indexer.storedSections ix' = Indexer.storedSections ix
     ∨ Indexer.storedSections ix' = S (Indexer.storedSections ix)).
Proof.
  induction 1 as [x|x y z Hxy Hyz IH]; intros HI; [auto|].
  pose proof (Inv_work _ _ Hxy HI) as HIy.
  destruct (work_untouched _ _ Hxy HI) as (_ & _ & _ & _ & Hcl & _).
  destruct (IH HIy) as (HIz & Hclz & Hst).
  split_and!; [done | congruence |].
  destruct Hxy as [ix0 s k Hin Hk | ix0 s Hin | ix0 s k Hin].
  - destruct (writePlane_fields s k ix0) as (_ & _ & _ & _ & _ & E & _).
    by rewrite E in Hst.
  - rewrite (work_none_rtc _ _ (commit_inflight s ix0) Hyz).
    destruct (Indexer.inv_inflight _ HI s _ Hin) as (-> & _).
    apply commit_stored.
  - rewrite (work_none_rtc (Indexer.abort ix0) z eq_refl Hyz). by left.
Qed.

Lemma work_run_reachable (ix ix' : Indexer.t) :
  rtc Indexer.work ix ix' → Indexer.reachable ix → Indexer.reachable ix'.
Proof.
  intros Hrun Hreach. eapply reachable_step; [done|].
  eapply rtc_subrel; [|exact Hrun]. intros x y. apply Indexer.step_work.
Qed.

Lemma work_complete_run (n : nat) : ∀ (ix : Indexer.t) (s k : nat),
  Bloom.BloomBitLength - k = n →
  Indexer.Inv ix → Indexer.inflight ix = Some (s, k) →
  ∃ ix', rtc Indexer.work ix ix'
    ∧ Indexer.inflight ix' = None
    ∧ Indexer.storedSections ix' = S s.
Proof.
  induction n as [|n IH]; intros ix s k Hn HI Hin.
  - destruct (Indexer.inv_inflight _ HI s k Hin) as (_ & Hk & Hlen & Hsz & _).
    assert (k = Bloom.BloomBitLength) as -> by lia.
    destruct (sectionHead_is_Some _ _ _ Hlen Hsz) as [h Hh].
    destruct (commit_fields s ix h Hh) as (Hnone & Hst & _).
    exists (Indexer.commit s ix). split_and!; [|done|done].
    apply rtc_once. by apply Indexer.work_commit.
  - assert (k < Bloom.BloomBitLength) as Hk by lia.
    destruct (writePlane_fields s k ix) as (_ & _ & _ & _ & _ & _ & Hin').
    destruct (IH (Indexer.writePlane s k ix) s (S k)) as (ix' & Hrun & Hnone & Hst);
      [lia | by apply Inv_writePlane | done |].
    exists ix'. split_and!; [|done|done].
    eapply rtc_l; [|exact Hrun]. by apply Indexer.work_write.
Qed.

Lemma closed_step_frozen (ix ix' : Indexer.t) :
  Indexer.step ix ix' →
  Indexer.closed ix = true → Indexer.inflight ix = None →
  Indexer.closed ix' = true ∧ Indexer.inflight ix' = None
  ∧ Indexer.storedSections ix' = Indexer.storedSections ix
  ∧ Indexer.checkpoints ix' = Indexer.checkpoints ix
  ∧ Indexer.fragments ix' = Indexer.fragments ix
  ∧ Indexer.canon ix' = Indexer.canon ix.
Proof.
  intros Hstep Hcl Hnone.
  destruct Hstep as [x y Hw | x y Hb | x c ? Hopen | x N c ? Hopen | x | x];
    try congruence; try done.
  - destruct Hw; congruence.
  - destruct Hb; congruence.
Qed.

Lemma closed_run_frozen (ix ix' : Indexer.t) :
  rtc Indexer.step ix ix' →
  Indexer.closed ix = true → Indexer.inflight ix = None →
  Indexer.closed ix' = true ∧ Indexer.inflight ix' = None
  ∧ Indexer.storedSections ix' = Indexer.storedSections ix
  ∧ Indexer.checkpoints ix' = Indexer.checkpoints ix
  ∧ Indexer.fragments ix' = Indexer.fragments ix
  ∧ Indexer.canon ix' = Indexer.canon ix.
Proof.
  induction 1 as [x|x y z Hxy _ IH]; intros Hcl Hnone; [done|].
  destruct (closed_step_frozen _ _ Hxy Hcl Hnone) as (Hc & Hn & E1 & E2 & E3 & E4).
  destruct (IH Hc Hn) as (? & ? & F1 & F2 & F3 & F4).
  split_and!; congruence.
Qed.

Lemma Stop_intro (confirms : nat) (node : Node.Atlantis) (ix ix' : Indexer.t) :
  Node.bloomIndexer node = Some ix →
  rtc Indexer.work (Indexer.setClosed true ix) ix' → Indexer.inflight ix' = None →
  ∃ node' log,
    Node.Stop (API := bloomIndexerAPI confirms) node node' log
    ∧ Node.bloomIndexer node' = Some ix'.
Proof.
  intros Hix Hrun Hnone. eexists _, _. split.
  - exists ix, ix'. split_and!; [done | by split | reflexivity | reflexivity].
  - reflexivity.
Qed.

(** C7. Shutdown and partial sections.  In every reachable state of the
    indexer a section that is observable as Stored has its completion
    checkpoint and all 2048 of its planes persisted, and the local store
    serves them; a section that is not Stored is not served at all, so
    the writes of a unit in flight are not visible.  [Atlantis.Stop]
    returns from every such state, and with a unit in flight it can
    return both ways: with the unit completed, its section Stored, and
    with the unit aborted, its section Empty.  [Stop] calls
    [bloomIndexer.Close] first, and whenever it has returned the indexer
    is closed, no unit is in flight (the one that was has completed,
    storing one more section, or aborted, storing none), every section
    is either Stored with its checkpoint and all 2048 planes served or
    Empty with nothing served, the state left behind is again a
    reachable one, and the indexer has stopped: no later step changes
    the stored count, the checkpoints or the fragments, or puts a unit
    in flight. *)
Theorem shutdown_leaves_no_partial_section (confirms : nat) (ix : Indexer.t) :
  Indexer.reachable ix →
  (∀ s, Indexer.sectionStatus ix s = Indexer.Stored →
     ∃ h, Indexer.checkpoints ix !! s = Some h
       ∧ ∀ bit, bit < 2048 →
           ∃ frag, Indexer.fragments ix !! (bit, s, h) = Some frag
                   ∧ Indexer.localFetch ix bit s = Some frag)
  ∧ (∀ s bit, Indexer.sectionStatus ix s ≠ Indexer.Stored →
       Indexer.localFetch ix bit s = None)
  ∧ (∀ node : Node.Atlantis,
       Node.bloomIndexer node = Some ix →
       (∃ node' log, Node.Stop (API := bloomIndexerAPI confirms) node node' log)
       ∧ ∀ s k, Indexer.inflight ix = Some (s, k) →
           (∃ node' log ix',
              Node.Stop (API := bloomIndexerAPI confirms) node node' log
              ∧ Node.bloomIndexer node' = Some ix'
              ∧ Indexer.sectionStatus ix' s = Indexer.Stored)
           ∧ (∃ node' log ix',
                Node.Stop (API := bloomIndexerAPI confirms) node node' log
                ∧ Node.bloomIndexer node' = Some ix'
                ∧ Indexer.sectionStatus ix' s = Indexer.Empty))
  ∧ (∀ (node node' : Node.Atlantis) (log : list Node.call),
       Node.bloomIndexer node = Some ix →
       Node.Stop (API := bloomIndexerAPI confirms) node node' log →
       ∃ ix' rest,
         log = Node.CallBloomIndexerClose :: rest
         ∧ Node.CallChainDbClose ∈ rest
         ∧ Node.bloomIndexer node' = Some ix'
         ∧ Indexer.closed ix' = true
         ∧ Indexer.inflight ix' = None
         ∧ Indexer.reachable ix'
         ∧ (Indexer.storedSections ix' = Indexer.storedSections ix
            ∨ Indexer.storedSections ix' = S (Indexer.storedSections ix))
         ∧ (∀ s,
              (Indexer.sectionStatus ix' s = Indexer.Stored
               ∧ ∃ h, Indexer.checkpoints ix' !! s = Some h
                   ∧ ∀ bit, bit < 2048 →
                       ∃ frag, Indexer.fragments ix' !! (bit, s, h) = Some frag
                               ∧ Indexer.localFetch ix' bit s = Some frag)
              ∨ (Indexer.sectionStatus ix' s = Indexer.Empty
                 ∧ ∀ bit, Indexer.localFetch ix' bit s = None))
         ∧ (∀ ix'', rtc Indexer.step ix' ix'' →
              Indexer.closed ix'' = true
              ∧ Indexer.inflight ix'' = None
              ∧ Indexer.storedSections ix'' = Indexer.storedSections ix'
              ∧ Indexer.checkpoints ix'' = Indexer.checkpoints ix'
              ∧ Indexer.fragments ix'' = Indexer.fragments ix')).
Proof.
  intros Hreach. pose proof (reachable_Inv _ Hreach) as HI.
  assert (∀ ix0, Indexer.Inv ix0 → ∀ s, Indexer.sectionStatus ix0 s = Indexer.Stored →
     ∃ h, Indexer.checkpoints ix0 !! s = Some h
       ∧ ∀ bit, bit < 2048 →
           ∃ frag, Indexer.fragments ix0 !! (bit, s, h) = Some frag
                   ∧ Indexer.localFetch ix0 bit s = Some frag) as Hstored.
  { intros ix0 HI0 s Hs%sectionStatus_Stored.
    destruct (Indexer.inv_stored _ HI0 s Hs) as [Ha Hb].
    destruct (sectionHead_is_Some _ _ _ Ha Hb) as [h Hh].
    exists h. split; [by rewrite (Indexer.inv_checkpoint _ HI0 s Hs)|].
    intros bit Hbit.
    destruct (Inv_localFetch ix0 s bit HI0 Hs Hbit) as (h' & frag & Hc & Hf & _ & Hl).
    rewrite (Indexer.inv_checkpoint _ HI0 s Hs), Hh in Hc. simplify_eq.
    by exists frag. }
  assert (Indexer.reachable (Indexer.setClosed true ix)) as Hcl.
  { eapply reachable_step; [done|]. apply rtc_once, Indexer.step_close. }
  split_and!.
  - by apply Hstored.
  - intros s bit Hs. apply Inv_localFetch_None; [done|].
    rewrite sectionStatus_Stored in Hs. lia.
  - intros node Hix. split.
    + destruct (Indexer.inflight ix) as [[s k]|] eqn:Hin.
      * destruct (Stop_intro confirms node ix (Indexer.abort (Indexer.setClosed true ix)) Hix)
          as (node' & log & Hstop & _); [|done|by eauto].
        apply rtc_once. by eapply (Indexer.work_abort _ s k).
      * destruct (Stop_intro confirms node ix (Indexer.setClosed true ix) Hix)
          as (node' & log & Hstop & _); [apply rtc_refl | done | by eauto].
    + intros s k Hin. split.
      * destruct (work_complete_run _ (Indexer.setClosed true ix) s k eq_refl
                    (reachable_Inv _ Hcl) Hin) as (ix' & Hrun & Hnone & Hst).
        destruct (Stop_intro confirms node ix ix' Hix Hrun Hnone)
          as (node' & log & Hstop & Hix').
        exists node', log, ix'. split_and!; [done | done |].
        apply sectionStatus_Stored. lia.
      * destruct (Stop_intro confirms node ix (Indexer.abort (Indexer.setClosed true ix)) Hix)
          as (node' & log & Hstop & Hix'); [|done|].
        { apply rtc_once. by eapply (Indexer.work_abort _ s k). }
        exists node', log, (Indexer.abort (Indexer.setClosed true ix)).
        split_and!; [done | done |].
        destruct (Indexer.inv_inflight _ HI s k Hin) as (-> & _).
        unfold Indexer.sectionStatus. simpl.
        by rewrite bool_decide_eq_false_2 by lia.
  - intros node node' log Hix (ci & ci' & Hci & [Hrun Hnone] & -> & ->).
    rewrite Hix in Hci. simplify_eq.
    destruct (work_run_outcome _ _ Hrun (reachable_Inv _ Hcl)) as (HI' & Hc & Hst).
    exists ci'. eexists.
    split_and!; [reflexivity | | done | done | done | | done | |].
    + unfold Node.stopCalls. simpl. destruct (Node.lesServer node); call_mem.
    + by eapply work_run_reachable.
    + intros s. destruct (decide (s < Indexer.storedSections ci')) as [Hs|Hs].
      * left. apply sectionStatus_Stored in Hs. split; [done|]. by apply Hstored.
      * right. split.
        -- unfold Indexer.sectionStatus.
           rewrite bool_decide_eq_false_2 by done. by rewrite Hnone.
        -- intros bit. apply Inv_localFetch_None; [done|lia].
    + intros ix'' Hsteps.
      destruct (closed_run_frozen _ _ Hsteps Hc Hnone) as (? & ? & ? & ? & ? & _).
      done.
Qed.

(** *** Reorganisations *)




(** The scenario's index is a reachable state of the indexer. *)
Lemma newHead_reachable (c : Chain.t) (ix : Indexer.t) :
  Indexer.reachable ix →
  Indexer.started ix = true → Indexer.closed ix = false →
  Indexer.inflight ix = None → Indexer.canon ix `prefix_of` c →
  Indexer.reachable (Indexer.newHead c ix).
Proof.
  intros Hreach Hst Hcl Hnone Hpre. unfold Indexer.newHead.
  destruct (update_run (Indexer.setCanon c ix)) as (R & _); [done..|].
  eapply reachable_step; [done|].
  eapply rtc_l; [by apply Indexer.step_head|]. by apply rtc_processing_step.
Qed.

Lemma Scenario_indexed_reachable : Indexer.reachable Scenario.indexed.
Proof.
  apply newHead_reachable; try done.
  - exists 4, 0. apply rtc_once, Indexer.step_start.
  - apply prefix_nil.
Qed.

(** ** The matcher *)

Lemma isWildcard_false (g : list nat) : Matcher.isWildcard g = false ↔ g ≠ [].
Proof. by destruct g. Qed.

Lemma elem_of_compile (g : list nat) (q : list (list nat)) :
  g ∈ Matcher.compile q ↔ g ∈ q ∧ g ≠ [].
Proof.
  unfold Matcher.compile. rewrite list_elem_of_filter, isWildcard_false. tauto.
Qed.

Lemma groupMatches_true (fetch : Matcher.Backend) (s offset : nat) (g : list nat) :
  Matcher.groupMatches fetch s offset g = true
  ↔ ∃ bit frag, bit ∈ g ∧ fetch bit s = Some frag ∧ Codec.testBit frag offset = true.
Proof.
  unfold Matcher.groupMatches. induction g as [|b g IH]; simpl.
  - split; [done|]. intros (bit & frag & Hin & _). by apply elem_of_nil in Hin.
  - rewrite orb_true_iff, IH. split.
    + intros [Hb | (bit & frag & Hin & Hf & Ht)].
      * destruct (fetch b s) as [frag|] eqn:E; [|done].
        exists b, frag. split_and!; [apply list_elem_of_here | done | done].
      * exists bit, frag. split_and!; [by apply list_elem_of_further | done | done].
    + intros (bit & frag & Hin & Hf & Ht).
      apply elem_of_cons in Hin as [->|Hin].
      * left. by rewrite Hf.
      * right. by exists bit, frag.
Qed.

Lemma forallb_true {A} (f : A → bool) (l : list A) :
  forallb f l = true ↔ ∀ x, x ∈ l → f x = true.
Proof.
  induction l as [|a l IH]; simpl.
  - split; [|done]. intros _ x Hx. by apply elem_of_nil in Hx.
  - rewrite andb_true_iff, IH. split.
    + intros [Ha Hl] x [->|Hx]%elem_of_cons; auto.
    + intros Hall. split; [apply Hall, list_elem_of_here|].
      intros x Hx. by apply Hall, list_elem_of_further.
Qed.

Lemma offsetMatches_true (fetch : Matcher.Backend) (q : list (list nat)) (s offset : nat) :
  Matcher.offsetMatches fetch q s offset = true
  ↔ ∀ g, g ∈ q → g ≠ [] →
      ∃ bit frag, bit ∈ g ∧ fetch bit s = Some frag ∧ Codec.testBit frag offset = true.
Proof.
  unfold Matcher.offsetMatches. rewrite forallb_true. split.
  - intros Hall g Hg Hne. apply groupMatches_true, Hall, elem_of_compile. done.
  - intros Hall g [Hg Hne]%elem_of_compile. apply groupMatches_true. by apply Hall.
Qed.

Lemma elem_of_neededBits (bit : nat) (q : list (list nat)) :
  bit ∈ Matcher.neededBits q → ∃ g, g ∈ q ∧ bit ∈ g.
Proof.
  unfold Matcher.neededBits.
  intros (g & Hg & Hbit)%list_elem_of_In%in_concat.
  apply list_elem_of_In, elem_of_compile in Hg as [Hg _].
  exists g. split; [done | by apply list_elem_of_In].
Qed.

Lemma elem_of_matchSection (fetch : Matcher.Backend) (size : nat)
    (q : list (list nat)) (s B : nat) (blocks : list nat) :
  Matcher.matchSection fetch size q s = Some blocks →
  B ∈ blocks ↔ ∃ offset, offset < size ∧ B = s * size + offset
                 ∧ Matcher.offsetMatches fetch q s offset = true.
Proof.
  unfold Matcher.matchSection. case_match; [|done]. intros [= <-].
  rewrite list_elem_of_fmap. split.
  - intros (offset & -> & [Hm Hin]%list_elem_of_filter).
    apply elem_of_seq in Hin. exists offset. split_and!; [lia | done | done].
  - intros (offset & Hlt & -> & Hm). exists offset. split; [done|].
    apply list_elem_of_filter. split; [done|]. apply elem_of_seq. lia.
Qed.

(** What the local store serves for a Stored section: at each offset of
    the section, the bloom bit of the block at that offset. *)
Lemma localFetch_testBit (ix : Indexer.t) (s bit offset : nat) :
  Indexer.Inv ix → s < Indexer.storedSections ix →
  bit < Bloom.BloomBitLength → offset < Indexer.sectionSize ix →
  ∃ frag blk,
    Indexer.localFetch ix bit s = Some frag
    ∧ Indexer.canon ix !! (s * Indexer.sectionSize ix + offset) = Some blk
    ∧ Codec.testBit frag offset = Bloom.test (Chain.bloom blk) bit.
Proof.
  intros HI Hs Hbit Hoff.
  destruct (Inv_localFetch ix s bit HI Hs Hbit) as (h & frag & _ & _ & Hpl & Hl).
  destruct (Indexer.inv_stored _ HI s Hs) as [Ha Hb].
  destruct (lookup_lt_is_Some_2 (Indexer.canon ix)
              (s * Indexer.sectionSize ix + offset)) as [blk Hblk]; [lia|].
  exists frag, blk. split_and!; [done | done |].
  unfold Indexer.sectionPlanes in Hpl.
  destruct (encode_lookup (Indexer.sectionSize ix)
              (Chain.sectionBlooms (Indexer.sectionSize ix) (Indexer.canon ix) s) bit)
    as (frag' & Hf' & _ & Hbits); [done | apply sectionBlooms_length |].
  rewrite Hpl in Hf'. simplify_eq. rewrite Hbits.
  unfold Chain.sectionBlooms, Chain.sectionBlocks.
  rewrite list_lookup_fmap, lookup_take_lt, lookup_drop, Hblk by done. done.
Qed.

Lemma localFetch_available (ix : Indexer.t) (q : list (list nat)) (s : nat) :
  Indexer.Inv ix → s < Indexer.storedSections ix →
  (∀ g bit, g ∈ q → bit ∈ g → bit < 2048) →
  Matcher.available (Indexer.localFetch ix) q s = true.
Proof.
  intros HI Hs Hq. unfold Matcher.available. apply forallb_true.
  intros bit (g & Hg & Hbit)%elem_of_neededBits.
  destruct (Inv_localFetch ix s bit HI Hs) as (h & frag & _ & _ & _ & Hl);
    [by eapply Hq|].
  apply bool_decide_eq_true_2. rewrite Hl. by eexists.
Qed.

(** One section of an index that holds it: the block at each offset is
    reported iff each group that is not a wildcard has one of its bits
    set in the bloom filter of that block. *)
Lemma matchSection_correct (ix : Indexer.t) (q : list (list nat)) (s : nat) :
  Indexer.Inv ix → s < Indexer.storedSections ix →
  (∀ g bit, g ∈ q → bit ∈ g → bit < 2048) →
  ∃ blocks,
    Matcher.matchSection (Indexer.localFetch ix) (Indexer.sectionSize ix) q s
    = Some blocks
    ∧ ∀ B, B ∈ blocks ↔
        s * Indexer.sectionSize ix ≤ B < S s * Indexer.sectionSize ix
        ∧ ∃ blk, Indexer.canon ix !! B = Some blk
            ∧ ∀ g, g ∈ q → g ≠ [] →
                ∃ bit, bit ∈ g ∧ Bloom.test (Chain.bloom blk) bit = true.
Proof.
  intros HI Hs Hq.
  pose proof (localFetch_available ix q s HI Hs Hq) as Hav.
  destruct (Matcher.matchSection (Indexer.localFetch ix) (Indexer.sectionSize ix) q s)
    as [blocks|] eqn:E;
    [|unfold Matcher.matchSection in E; by rewrite Hav in E].
  exists blocks. split; [done|]. intros B.
  rewrite (elem_of_matchSection _ _ _ _ _ _ E). split.
  - intros (offset & Hoff & -> & Hm). split; [lia|].
    rewrite offsetMatches_true in Hm.
    destruct (lookup_lt_is_Some_2 (Indexer.canon ix)
                (s * Indexer.sectionSize ix + offset)) as [blk Hblk].
    { destruct (Indexer.inv_stored _ HI s Hs). lia. }
    exists blk. split; [done|]. intros g Hg Hne.
    destruct (Hm g Hg Hne) as (bit & frag & Hbit & Hf & Ht).
    exists bit. split; [done|].
    destruct (localFetch_testBit ix s bit offset HI Hs) as (frag' & blk' & Hf' & Hb' & Ht');
      [by eapply Hq | done |].
    rewrite Hf in Hf'. rewrite Hblk in Hb'. simplify_eq. by rewrite <- Ht'.
  - intros [Hrange (blk & Hblk & Hall)].
    exists (B - s * Indexer.sectionSize ix). split_and!; [lia | lia |].
    apply offsetMatches_true. intros g Hg Hne.
    destruct (Hall g Hg Hne) as (bit & Hbit & Ht).
    destruct (localFetch_testBit ix s bit (B - s * Indexer.sectionSize ix) HI Hs)
      as (frag' & blk' & Hf' & Hb' & Ht'); [by eapply Hq | lia |].
    replace (s * Indexer.sectionSize ix + (B - s * Indexer.sectionSize ix))
      with B in Hb' by lia.
    rewrite Hblk in Hb'. simplify_eq.
    exists bit, frag'. split_and!; [done | done | by rewrite Ht'].
Qed.

(** ** Matcher sessions *)

Lemma elem_of_sectionResults (d : Session.direction) (startBlock endBlock B : nat)
    (blocks : list nat) :
  B ∈ Session.sectionResults d startBlock endBlock blocks
  ↔ B ∈ blocks ∧ startBlock ≤ B ≤ endBlock.
Proof.
  unfold Session.sectionResults, Session.inRange.
  destruct d; rewrite ?elem_of_reverse, list_elem_of_filter, bool_decide_eq_true; tauto.
Qed.

Lemma elem_of_sectionsOf (size : nat) (d : Session.direction)
    (startBlock endBlock s : nat) :
  s ∈ Session.sectionsOf size d startBlock endBlock
  ↔ startBlock / size ≤ s ≤ endBlock / size.
Proof.
  unfold Session.sectionsOf. destruct d; rewrite ?elem_of_reverse, elem_of_seq; lia.
Qed.

Lemma evalSections_correct (ix : Indexer.t) (q : list (list nat))
    (d : Session.direction) (startBlock endBlock : nat) (todo : list nat) :
  Indexer.Inv ix →
  (∀ g bit, g ∈ q → bit ∈ g → bit < 2048) →
  (∀ s, s ∈ todo → s < Indexer.storedSections ix) →
  let r := Session.evalSections (Indexer.localFetch ix) (Indexer.sectionSize ix)
             q d startBlock endBlock todo in
  r.2 = None
  ∧ ∀ B, B ∈ r.1 ↔
      startBlock ≤ B ≤ endBlock
      ∧ (∃ s, s ∈ todo
           ∧ s * Indexer.sectionSize ix ≤ B < S s * Indexer.sectionSize ix)
      ∧ ∃ blk, Indexer.canon ix !! B = Some blk
          ∧ ∀ g, g ∈ q → g ≠ [] →
              ∃ bit, bit ∈ g ∧ Bloom.test (Chain.bloom blk) bit = true.
Proof.
  intros HI Hq. induction todo as [|s todo IH]; intros Hall; cbv zeta.
  - simpl. split; [done|]. intros B. split.
    + by intros ?%elem_of_nil.
    + intros (_ & (s & Hs%elem_of_nil & _) & _). done.
  - destruct (matchSection_correct ix q s HI) as (blocks & Hm & Hblocks);
      [apply Hall, list_elem_of_here | done |].
    destruct IH as [IH1 IH2].
    { intros s' Hs'. by apply Hall, list_elem_of_further. }
    simpl. rewrite Hm. simpl. split; [done|]. intros B.
    rewrite elem_of_app, elem_of_sectionResults, Hblocks, IH2. split.
    + intros [[(Hr & Hc) Hrange] | (Hrange & (s' & Hs' & Hr) & Hc)].
      * split; [done|]. split; [|done].
        exists s. split; [apply list_elem_of_here | done].
      * split; [done|]. split; [|done].
        exists s'. split; [by apply list_elem_of_further | done].
    + intros (Hrange & (s' & Hs' & Hr) & Hc).
      apply elem_of_cons in Hs' as [->|Hs'].
      * by left.
      * right. split; [done|]. split; [|done]. by exists s'.
Qed.

(** C1 (as amended). Query correctness.  For every filter query whose
    bit positions are below 2048, and every range that lies within the
    sections the index holds, the session over the local store ends
    without a partial-result condition and reports a block iff the
    block is in the range and every OR-group of the query that is not
    empty has at least one of its bit positions set in the bloom filter
    of the block on the canonical chain; an empty group is a wildcard
    and excludes nothing.  On the scenario (sectionSize 4, blocks 0-3
    with bloom bits {5}, {}, {5,9}, {9}) the query [{5}] over [0,3]
    yields exactly the blocks 0 and 2, and [{5},{9}] yields exactly the
    block 2. *)
Theorem query_correctness (ix : Indexer.t) (q : list (list nat))
    (d : Session.direction) (startBlock endBlock : nat) :
  Indexer.reachable ix →
  (∀ g bit, g ∈ q → bit ∈ g → bit < 2048) →
  endBlock < Indexer.storedSections ix * Indexer.sectionSize ix →
  let r := Session.run (Indexer.localFetch ix) (Indexer.sectionSize ix)
             q d startBlock endBlock in
  r.2 = None
  ∧ (∀ B, B ∈ r.1 ↔
       startBlock ≤ B ≤ endBlock
       ∧ ∃ blk, Indexer.canon ix !! B = Some blk
           ∧ ∀ g, g ∈ q → g ≠ [] →
               ∃ bit, bit ∈ g ∧ Bloom.test (Chain.bloom blk) bit = true)
  ∧ Scenario.results [[5]] = ([0; 2], None)
  ∧ Scenario.results [[5]; [9]] = ([2], None).
Proof.
  intros Hreach Hq Hend. pose proof (reachable_Inv _ Hreach) as HI. cbv zeta.
  assert (0 < Indexer.sectionSize ix) as Hsz.
  { destruct (Indexer.inv_stored _ HI 0); [lia | done]. }
  destruct (evalSections_correct ix q d startBlock endBlock
              (Session.sectionsOf (Indexer.sectionSize ix) d startBlock endBlock) HI Hq)
    as [H1 H2].
  { intros s [_ Hs]%elem_of_sectionsOf.
    eapply Nat.le_lt_trans; [exact Hs|].
    apply Nat.Div0.div_lt_upper_bound. lia. }
  unfold Session.run. split_and!; [done | | by vm_compute | by vm_compute].
  intros B. rewrite H2. split.
  - intros (Hrange & _ & Hc). done.
  - intros (Hrange & Hc). split; [done|]. split; [|done].
    exists (B / Indexer.sectionSize ix). rewrite elem_of_sectionsOf.
    pose proof (Nat.div_mod_eq B (Indexer.sectionSize ix)).
    pose proof (Nat.mod_upper_bound B (Indexer.sectionSize ix)).
    split_and!; [apply Nat.Div0.div_le_mono; lia | apply Nat.Div0.div_le_mono; lia
                | lia | lia].
Qed.

(** C1, counterexample.  On the scenario the query with one empty group
    reports block 1, whose bloom filter is empty, although the empty
    group has no bit position that is set in it. *)
Lemma wildcard_group_matches_every_block :
  1 ∈ (Scenario.results [[]]).1
  ∧ Scenario.chain !! 1 = Some (Scenario.block 1 [])
  ∧ ¬ (∀ g : list nat, g ∈ [[]] →
         ∃ bit, bit ∈ g
                ∧ Bloom.test (Chain.bloom (Scenario.block 1 [])) bit = true).
Proof.
  split_and!.
  - replace (Scenario.results [[]]) with ([0; 1; 2; 3], @None nat) by by vm_compute.
    simpl. call_mem.
  - done.
  - intros Hall. destruct (Hall [] (list_elem_of_here _ _)) as (bit & Hbit & _).
    by apply elem_of_nil in Hbit.
Qed.

(** *** Cancellation *)

(** From a cancelled session: either nothing more is emitted, or the one
    section that was under evaluation is emitted and the session rests. *)
Lemma cancelled_run (fetch : Matcher.Backend) (x z : Session.t) :
  rtc (Session.step fetch) x z →
  Session.cancelled x = true →
  Session.cancelled z = true
  ∧ Session.requests z = Session.requests x
  ∧ Session.incomplete z = Session.incomplete x
  ∧ ((Session.emitted z = Session.emitted x
      ∧ Session.todo z = Session.todo x
      ∧ Session.ph z = Session.ph x)
     ∨ (Session.ph x = Session.Evaluating
        ∧ Session.ph z = Session.Idle
        ∧ ∃ s rest blocks,
            Session.todo x = s :: rest
            ∧ Matcher.matchSection fetch (Session.size x) (Session.query x) s
              = Some blocks
            ∧ Session.todo z = rest
            ∧ Session.emitted z
              = Session.emitted x
                ++ Session.sectionResults (Session.dir x) (Session.startBlock x)
                     (Session.endBlock x) blocks)).
Proof.
  induction 1 as [x|x y z Hxy Hyz IH]; intros Hc.
  - split_and!; auto.
  - destruct Hxy as [ss s rest Hph Hnc Htodo | ss s rest Hph Hnc Htodo Hav
                    | ss s rest Hph Hnc Htodo Hav | ss s rest blocks Hph Htodo Hm | ss];
      try congruence.
    + destruct IH as (C & R & I & [(E & T & P) | (P & _)]); [done | | done].
      simpl in *. split_and!; [done..|]. right.
      split_and!; [done | done |]. by exists s, rest, blocks.
    + destruct IH as (C & R & I & [(E & T & P) | (P & P' & s & rest & blocks & T & M & T' & E)]);
        [done | |]; simpl in *.
      * split_and!; [done..|]. by left.
      * split_and!; [done..|]. right. split_and!; [done | done |].
        by exists s, rest, blocks.
Qed.

(** C6. Cancellation.  After Close/cancel, whatever the session does
    next: it stays cancelled; it issues no further fragment request;
    what it had emitted is kept, as a prefix of what is emitted in the
    end; and it crosses at most one further section boundary, namely
    when the fragments of a section had been delivered and the section
    was under evaluation at the time of the cancellation, whose results
    are then emitted, after which the session rests. *)
Theorem cancel_stops_session (fetch : Matcher.Backend) (ss ss' : Session.t) :
  rtc (Session.step fetch) (Session.Close ss) ss' →
  Session.cancelled ss' = true
  ∧ Session.requests ss' = Session.requests ss
  ∧ Session.emitted ss `prefix_of` Session.emitted ss'
  ∧ length (Session.todo ss) ≤ S (length (Session.todo ss'))
  ∧ ((Session.emitted ss' = Session.emitted ss
      ∧ Session.todo ss' = Session.todo ss)
     ∨ (Session.ph ss = Session.Evaluating
        ∧ Session.ph ss' = Session.Idle
        ∧ ∃ s rest blocks,
            Session.todo ss = s :: rest
            ∧ Matcher.matchSection fetch (Session.size ss) (Session.query ss) s
              = Some blocks
            ∧ Session.todo ss' = rest
            ∧ Session.emitted ss'
              = Session.emitted ss
                ++ Session.sectionResults (Session.dir ss) (Session.startBlock ss)
                     (Session.endBlock ss) blocks)).
Proof.
  intros Hrun.
  destruct (cancelled_run fetch _ _ Hrun eq_refl)
    as (C & R & _ & [(E & T & P) | (P & P' & s & rest & blocks & T & M & T' & E)]);
    simpl in *.
  - split_and!; [done | done | by rewrite E | rewrite T; lia | by left].
  - split_and!; [done | done | rewrite E; by apply prefix_app_r
                | rewrite T, T'; simpl; lia |].
    right. split_and!; [done | done |]. by exists s, rest, blocks.
Qed.

(** In every run, cancelled or not, results once emitted are kept. *)
Lemma emitted_kept (fetch : Matcher.Backend) (ss ss' : Session.t) :
  rtc (Session.step fetch) ss ss' →
  Session.emitted ss `prefix_of` Session.emitted ss'.
Proof.
  induction 1 as [x|x y z Hxy Hyz IH]; [done|].
  etrans; [|exact IH]. destruct Hxy; simpl; try done. by apply prefix_app_r.
Qed.

(** ** The retrieval workers

    What the node code fixes about the scheduler: [ServiceFilter] starts
    [bloomFilterThreads] workers on the session, each with the batch
    size [bloomRetrievalBatch], the wait ceiling [bloomRetrievalWait]
    and the node's [bloomRequests] channel. *)
Lemma EthServiceFilter_workers (CI : Type) (threads : nat) (batch wait : Z)
    (b : Node.EthAPIBackend (CI := CI)) :
  length (Node.EthServiceFilter threads batch wait b) = threads
  ∧ ∀ c, c ∈ Node.EthServiceFilter threads batch wait b →
      c = Node.GoMultiplex batch wait (Node.bloomRequests (Node.ath b)).
Proof.
  unfold Node.EthServiceFilter. split.
  - by rewrite length_fmap, length_seq.
  - by intros c (i & -> & _)%list_elem_of_fmap.
Qed.

Lemma LesServiceFilter_workers (CI : Type) (threads : nat) (batch wait : Z)
    (b : Node.LesApiBackend (CI := CI)) :
  length (Node.LesServiceFilter threads batch wait b) = threads
  ∧ ∀ c, c ∈ Node.LesServiceFilter threads batch wait b →
      c = Node.GoMultiplex batch wait (Node.lesBloomRequests (Node.lesAth b)).
Proof.
  unfold Node.LesServiceFilter. split.
  - by rewrite length_fmap, length_seq.
  - by intros c (i & -> & _)%list_elem_of_fmap.
Qed.

(** ** The theorems on concrete inputs *)

Lemma encode_test_roundtrip_witness :
  ∃ frag byte bloom,
    Codec.encode 4 (Chain.sectionBlooms 4 Scenario.chain 0) !! 5 = Some frag
    ∧ frag !! (2 / 8) = Some byte
    ∧ Chain.sectionBlooms 4 Scenario.chain 0 !! 2 = Some bloom
    ∧ Codec.byteBit byte (2 mod 8) = Bloom.test bloom 5
    ∧ Codec.testBit frag 2 = Bloom.test bloom 5.
Proof.
  apply (encode_test_roundtrip 4 (Chain.sectionBlooms 4 Scenario.chain 0) 5 2);
    [reflexivity | lia | lia].
Defined.

Lemma query_correctness_witness :
  let r := Session.run (Indexer.localFetch Scenario.indexed)
             (Indexer.sectionSize Scenario.indexed) [[5]; [9]]
             Session.Ascending 0 3 in
  r.2 = None
  ∧ (∀ B, B ∈ r.1 ↔
       0 ≤ B ≤ 3
       ∧ ∃ blk, Indexer.canon Scenario.indexed !! B = Some blk
           ∧ ∀ g, g ∈ [[5]; [9]] → g ≠ [] →
               ∃ bit, bit ∈ g ∧ Bloom.test (Chain.bloom blk) bit = true)
  ∧ Scenario.results [[5]] = ([0; 2], None)
  ∧ Scenario.results [[5]; [9]] = ([2], None).
Proof.
  apply (query_correctness Scenario.indexed [[5]; [9]] Session.Ascending 0 3).
  - exact Scenario_indexed_reachable.
  - intros g bit Hg Hbit.
    apply elem_of_cons in Hg as [->|Hg].
    { apply elem_of_cons in Hbit as [->|Hbit]; [lia | by apply elem_of_nil in Hbit]. }
    apply elem_of_cons in Hg as [->|Hg]; [|by apply elem_of_nil in Hg].
    apply elem_of_cons in Hbit as [->|Hbit]; [lia | by apply elem_of_nil in Hbit].
  - vm_compute. lia.
Defined.


Lemma cancel_stops_session_witness :
  Session.cancelled Scenario.cancelledAfterSection = true
  ∧ Session.requests Scenario.cancelledAfterSection
    = Session.requests Scenario.evaluating
  ∧ Session.emitted Scenario.evaluating
    `prefix_of` Session.emitted Scenario.cancelledAfterSection
  ∧ length (Session.todo Scenario.evaluating)
    ≤ S (length (Session.todo Scenario.cancelledAfterSection))
  ∧ ((Session.emitted Scenario.cancelledAfterSection
      = Session.emitted Scenario.evaluating
      ∧ Session.todo Scenario.cancelledAfterSection
        = Session.todo Scenario.evaluating)
     ∨ (Session.ph Scenario.evaluating = Session.Evaluating
        ∧ Session.ph Scenario.cancelledAfterSection = Session.Idle
        ∧ ∃ s rest blocks,
            Session.todo Scenario.evaluating = s :: rest
            ∧ Matcher.matchSection (Indexer.localFetch Scenario.indexed)
                (Session.size Scenario.evaluating)
                (Session.query Scenario.evaluating) s
              = Some blocks
            ∧ Session.todo Scenario.cancelledAfterSection = rest
            ∧ Session.emitted Scenario.cancelledAfterSection
              = Session.emitted Scenario.evaluating
                ++ Session.sectionResults (Session.dir Scenario.evaluating)
                     (Session.startBlock Scenario.evaluating)
                     (Session.endBlock Scenario.evaluating) blocks)).
Proof.
  apply (cancel_stops_session (Indexer.localFetch Scenario.indexed)
           Scenario.evaluating Scenario.cancelledAfterSection).
  eapply rtc_l; [|apply rtc_refl].
  assert (Matcher.matchSection (Indexer.localFetch Scenario.indexed) 4 [[5]] 0
          = Some [0; 2]) as Hm by (by vm_compute).
  exact (Session.step_emit (Indexer.localFetch Scenario.indexed)
           (Session.Close Scenario.evaluating) 0 [] [0; 2] eq_refl eq_refl Hm).
Defined.

Lemma Scenario_midSection_reachable : Indexer.reachable Scenario.midSection.
Proof.
  exists 4, 0. unfold Scenario.midSection.
  eapply rtc_l; [apply Indexer.step_start|].
  eapply rtc_l; [apply (Indexer.step_head _ Scenario.chain); [done | done | apply prefix_nil]|].
  eapply rtc_l.
  { apply Indexer.step_begin, Indexer.begins_next; [done | done | done |].
    vm_compute. lia. }
  apply rtc_once, Indexer.step_work.
  apply Indexer.work_write; [done|]. unfold Bloom.BloomBitLength. lia.
Qed.

Lemma shutdown_leaves_no_partial_section_witness :
  (∀ s, Indexer.sectionStatus Scenario.midSection s = Indexer.Stored →
     ∃ h, Indexer.checkpoints Scenario.midSection !! s = Some h
       ∧ ∀ bit, bit < 2048 →
           ∃ frag, Indexer.fragments Scenario.midSection !! (bit, s, h) = Some frag
                   ∧ Indexer.localFetch Scenario.midSection bit s = Some frag)
  ∧ (∀ s bit, Indexer.sectionStatus Scenario.midSection s ≠ Indexer.Stored →
       Indexer.localFetch Scenario.midSection bit s = None)
  ∧ (∀ node : Node.Atlantis,
       Node.bloomIndexer node = Some Scenario.midSection →
       (∃ node' log, Node.Stop (API := bloomIndexerAPI 0) node node' log)
       ∧ ∀ s k, Indexer.inflight Scenario.midSection = Some (s, k) →
           (∃ node' log ix',
              Node.Stop (API := bloomIndexerAPI 0) node node' log
              ∧ Node.bloomIndexer node' = Some ix'
              ∧ Indexer.sectionStatus ix' s = Indexer.Stored)
           ∧ (∃ node' log ix',
                Node.Stop (API := bloomIndexerAPI 0) node node' log
                ∧ Node.bloomIndexer node' = Some ix'
                ∧ Indexer.sectionStatus ix' s = Indexer.Empty))
  ∧ (∀ (node node' : Node.Atlantis) (log : list Node.call),
       Node.bloomIndexer node = Some Scenario.midSection →
       Node.Stop (API := bloomIndexerAPI 0) node node' log →
       ∃ ix' rest,
         log = Node.CallBloomIndexerClose :: rest
         ∧ Node.CallChainDbClose ∈ rest
         ∧ Node.bloomIndexer node' = Some ix'
         ∧ Indexer.closed ix' = true
         ∧ Indexer.inflight ix' = None
         ∧ Indexer.reachable ix'
         ∧ (Indexer.storedSections ix' = Indexer.storedSections Scenario.midSection
            ∨ Indexer.storedSections ix' = S (Indexer.storedSections Scenario.midSection))
         ∧ (∀ s,
              (Indexer.sectionStatus ix' s = Indexer.Stored
               ∧ ∃ h, Indexer.checkpoints ix' !! s = Some h
                   ∧ ∀ bit, bit < 2048 →
                       ∃ frag, Indexer.fragments ix' !! (bit, s, h) = Some frag
                               ∧ Indexer.localFetch ix' bit s = Some frag)
              ∨ (Indexer.sectionStatus ix' s = Indexer.Empty
                 ∧ ∀ bit, Indexer.localFetch ix' bit s = None))
         ∧ (∀ ix'', rtc Indexer.step ix' ix'' →
              Indexer.closed ix'' = true
              ∧ Indexer.inflight ix'' = None
              ∧ Indexer.storedSections ix'' = Indexer.storedSections ix'
              ∧ Indexer.checkpoints ix'' = Indexer.checkpoints ix'
              ∧ Indexer.fragments ix'' = Indexer.fragments ix')).
Proof.
  apply (shutdown_leaves_no_partial_section 0 Scenario.midSection).
  exact Scenario_midSection_reachable.
Defined.

(** ** FUSE protocol versions *)

Lemma Fuse_LT_spec (a b : Fuse.Protocol) :
  Fuse.LT a b = true
  ↔ (Fuse.Major a < Fuse.Major b
     ∨ (Fuse.Major a = Fuse.Major b ∧ Fuse.Minor a < Fuse.Minor b))%Z.
Proof.
  unfold Fuse.LT.
  rewrite orb_true_iff, andb_true_iff, !Z.ltb_lt, Z.eqb_eq. tauto.
Qed.

Lemma Fuse_GE_spec (a b : Fuse.Protocol) :
  Fuse.GE a b = true
  ↔ (Fuse.Major b < Fuse.Major a
     ∨ (Fuse.Major a = Fuse.Major b ∧ Fuse.Minor b ≤ Fuse.Minor a))%Z.
Proof.
  unfold Fuse.GE.
  rewrite orb_true_iff, andb_true_iff, Z.gtb_ltb, Z.geb_leb, Z.ltb_lt, Z.leb_le, Z.eqb_eq.
  tauto.
Qed.

(** X1. [GE] is the negation of [LT]: of any two versions exactly one of
    "a is less than b" and "a is greater than or equal to b" holds. *)
Theorem Fuse_GE_is_not_LT (a b : Fuse.Protocol) :
  Fuse.GE a b = negb (Fuse.LT a b).
Proof.
  apply eq_true_iff_eq. rewrite negb_true_iff, <- not_true_iff_false.
  rewrite Fuse_GE_spec, Fuse_LT_spec. lia.
Qed.

(** X2. [LT] is a strict order: no version is less than itself, and
    a < b and b < c give a < c. *)
Theorem Fuse_LT_strict_order (a b c : Fuse.Protocol) :
  Fuse.LT a a = false
  ∧ (Fuse.LT a b = true → Fuse.LT b c = true → Fuse.LT a c = true)
  ∧ (Fuse.LT a b = true → Fuse.LT b a = false).
Proof.
  split_and!.
  - apply not_true_iff_false. rewrite Fuse_LT_spec. lia.
  - rewrite !Fuse_LT_spec. lia.
  - rewrite <- not_true_iff_false, !Fuse_LT_spec. lia.
Qed.

(** X3. The order is total on versions: of two versions one is less
    than the other or they are the same version; and two versions that
    are each greater than or equal to the other are the same. *)
Theorem Fuse_order_total (a b : Fuse.Protocol) :
  (Fuse.LT a b = true ∨ a = b ∨ Fuse.LT b a = true)
  ∧ (Fuse.GE a b = true → Fuse.GE b a = true → a = b).
Proof.
  destruct a as [a1 a2], b as [b1 b2].
  rewrite !Fuse_LT_spec, !Fuse_GE_spec. simpl. split.
  - destruct (Z.lt_trichotomy a1 b1) as [?|[->|?]]; [lia| |lia].
    destruct (Z.lt_trichotomy a2 b2) as [?|[->|?]]; [lia | by right; left | lia].
  - intros H1 H2. f_equal; lia.
Qed.

(** X4. Features are never lost by a newer kernel: a feature test that
    holds of a version holds of every version greater than or equal to
    it. *)
Theorem Fuse_features_monotone (f : Fuse.Protocol → bool) (a b : Fuse.Protocol) :
  f ∈ Fuse.features →
  Fuse.GE b a = true → f a = true → f b = true.
Proof.
  intros Hf Hge.
  assert (∀ v, Fuse.GE a v = true → Fuse.GE b v = true) as Htrans.
  { intros v. revert Hge. rewrite !Fuse_GE_spec. lia. }
  unfold Fuse.features in Hf.
  repeat (apply elem_of_cons in Hf as [->|Hf]; [apply Htrans|]).
  by apply elem_of_nil in Hf.
Qed.

(** X5. The features come in release order: a kernel with [HasUmask]
    (7.12) has [HasOpenNonSeekable] (7.10), and one with
    [HasOpenNonSeekable] has [HasAttrBlockSize], [HasReadWriteFlags] and
    [HasGetattrFlags] (7.9); versions below 7.9 have none of the six. *)
Theorem Fuse_features_chain (a : Fuse.Protocol) :
  (Fuse.HasUmask a = true → Fuse.HasOpenNonSeekable a = true)
  ∧ (Fuse.HasInvalidate a = Fuse.HasUmask a)
  ∧ (Fuse.HasOpenNonSeekable a = true →
     Fuse.HasAttrBlockSize a = true ∧ Fuse.HasReadWriteFlags a = true
     ∧ Fuse.HasGetattrFlags a = true)
  ∧ (Fuse.LT a (Fuse.mkProtocol 7 9) = true →
     ∀ f, f ∈ Fuse.features → f a = false).
Proof.
  unfold Fuse.HasUmask, Fuse.HasInvalidate, Fuse.HasOpenNonSeekable,
    Fuse.HasAttrBlockSize, Fuse.HasReadWriteFlags, Fuse.HasGetattrFlags,
    Fuse.is79, Fuse.is710, Fuse.is712.
  split_and!.
  - rewrite !Fuse_GE_spec. simpl. lia.
  - done.
  - rewrite !Fuse_GE_spec. simpl. lia.
  - intros Hlt f Hf. unfold Fuse.features in Hf.
    assert (∀ v, (7 < Fuse.Major v ∨ 7 = Fuse.Major v ∧ 9 ≤ Fuse.Minor v)%Z →
                 Fuse.GE a v = false) as Hno.
    { intros v Hv. apply not_true_iff_false. revert Hlt.
      rewrite Fuse_LT_spec, Fuse_GE_spec. simpl. lia. }
    repeat (apply elem_of_cons in Hf as [->|Hf];
            [apply Hno; simpl; lia|]).
    by apply elem_of_nil in Hf.
Qed.

(** ** The metered message stream *)

Lemma count_Mark_eq (name : string) (n : Z) (meters : gmap string Z) :
  Metered.count (Metered.Mark name n meters) name = (Metered.count meters name + n)%Z.
Proof. unfold Metered.Mark, Metered.count at 1. by rewrite lookup_insert_eq. Qed.

Lemma count_Mark_ne (name name' : string) (n : Z) (meters : gmap string Z) :
  name ≠ name' →
  Metered.count (Metered.Mark name n meters) name' = Metered.count meters name'.
Proof.
  intros Hne. unfold Metered.Mark, Metered.count at 1.
  by rewrite lookup_insert_ne.
Qed.

Lemma total_Mark_notin (names : list string) (name : string) (n : Z)
    (meters : gmap string Z) :
  name ∉ names →
  Metered.total names (Metered.Mark name n meters) = Metered.total names meters.
Proof.
  induction names as [|x names IH]; intros Hnot; simpl; [done|].
  apply not_elem_of_cons in Hnot as [Hne Hnot].
  by rewrite count_Mark_ne, IH.
Qed.

Lemma total_Mark_in (names : list string) (name : string) (n : Z)
    (meters : gmap string Z) :
  NoDup names → name ∈ names →
  Metered.total names (Metered.Mark name n meters)
  = (Metered.total names meters + n)%Z.
Proof.
  induction names as [|x names IH]; intros Hnd Hin; simpl.
  - by apply elem_of_nil in Hin.
  - apply NoDup_cons in Hnd as [Hx Hnd].
    apply elem_of_cons in Hin as [->|Hin].
    + rewrite count_Mark_eq, total_Mark_notin by done. lia.
    + rewrite count_Mark_ne, IH by (done || by intros ->). lia.
Qed.

Lemma meters_NoDup :
  NoDup (Metered.inPacketsMeters ++ Metered.inTrafficMeters
         ++ Metered.outPacketsMeters ++ Metered.outTrafficMeters).
Proof. apply (bool_decide_unpack _). by vm_compute. Qed.

Section MeteredFacts.

Variable ath63 : Z.
Variables NewBlockHashesMsg TxMsg BlockHeadersMsg BlockBodiesMsg : Z.
Variables NewBlockMsg NodeDataMsg ReceiptsMsg : Z.

Abbreviation inMeters :=
  (Metered.inMeters ath63 NewBlockHashesMsg TxMsg BlockHeadersMsg BlockBodiesMsg
     NewBlockMsg NodeDataMsg ReceiptsMsg).
Abbreviation outMeters :=
  (Metered.outMeters ath63 NewBlockHashesMsg TxMsg BlockHeadersMsg BlockBodiesMsg
     NewBlockMsg NodeDataMsg ReceiptsMsg).
Abbreviation ReadMsg :=
  (Metered.ReadMsg ath63 NewBlockHashesMsg TxMsg BlockHeadersMsg BlockBodiesMsg
     NewBlockMsg NodeDataMsg ReceiptsMsg).
Abbreviation WriteMsg :=
  (Metered.WriteMsg ath63 NewBlockHashesMsg TxMsg BlockHeadersMsg BlockBodiesMsg
     NewBlockMsg NodeDataMsg ReceiptsMsg).
Abbreviation readThrough :=
  (Metered.readThrough ath63 NewBlockHashesMsg TxMsg BlockHeadersMsg BlockBodiesMsg
     NewBlockMsg NodeDataMsg ReceiptsMsg).

(** The meters a message is counted on are a packets meter and the
    traffic meter of the same family and direction. *)
Lemma inMeters_paired (rw : Metered.meteredMsgReadWriter) (msg : Metered.Msg) :
  ∃ i, Metered.inPacketsMeters !! i = Some (inMeters rw msg).1
       ∧ Metered.inTrafficMeters !! i = Some (inMeters rw msg).2.
Proof.
  unfold Metered.inMeters. repeat case_match; simpl;
    [by exists 3 | by exists 4 | by exists 5 | by exists 6
    | by exists 1 | by exists 2 | by exists 0 | by exists 7].
Qed.

Lemma outMeters_paired (rw : Metered.meteredMsgReadWriter) (msg : Metered.Msg) :
  ∃ i, Metered.outPacketsMeters !! i = Some (outMeters rw msg).1
       ∧ Metered.outTrafficMeters !! i = Some (outMeters rw msg).2.
Proof.
  unfold Metered.outMeters. repeat case_match; simpl;
    [by exists 3 | by exists 4 | by exists 5 | by exists 6
    | by exists 1 | by exists 2 | by exists 0 | by exists 7].
Qed.

Lemma paired_elem_of (l1 l2 : list string) (i : nat) (p t : string) :
  l1 !! i = Some p → l2 !! i = Some t → p ∈ l1 ∧ t ∈ l2.
Proof. intros H1 H2. split; by eapply list_elem_of_lookup_2. Qed.

(** X6. [ReadMsg] hands on what the wrapped stream returned, message and
    error alike; a failed read marks no meter, and neither does any
    read through the stream that [newMeteredMsgWriter] returns when the
    metrics system is disabled. *)
Theorem Metered_ReadMsg_passes_through (rw : Metered.meteredMsgReadWriter)
    (inner : Metered.Msg * option Metered.ioError) (meters : gmap string Z) :
  (ReadMsg rw inner meters).1 = inner
  ∧ (inner.2 ≠ None → (ReadMsg rw inner meters).2 = meters)
  ∧ readThrough (Metered.newMeteredMsgWriter false) inner meters = (inner, meters).
Proof.
  destruct inner as [msg [err|]]; unfold Metered.ReadMsg; simpl.
  - done.
  - destruct (inMeters rw msg). simpl. split_and!; done.
Qed.

(** X7. A successful read is accounted once: one packets meter of the
    inbound family of the message grows by 1, the traffic meter of the
    same family grows by the size of the message, and every other meter
    keeps its count. *)
Theorem Metered_ReadMsg_accounts_once (rw : Metered.meteredMsgReadWriter)
    (msg : Metered.Msg) (meters : gmap string Z) :
  let meters' := (ReadMsg rw (msg, None) meters).2 in
  ∃ i packets traffic,
    Metered.inPacketsMeters !! i = Some packets
    ∧ Metered.inTrafficMeters !! i = Some traffic
    ∧ Metered.count meters' packets = (Metered.count meters packets + 1)%Z
    ∧ Metered.count meters' traffic
      = (Metered.count meters traffic + Metered.Size msg)%Z
    ∧ ∀ name, name ≠ packets → name ≠ traffic →
        Metered.count meters' name = Metered.count meters name.
Proof.
  cbv zeta. unfold Metered.ReadMsg.
  destruct (inMeters_paired rw msg) as (i & Hp & Ht).
  destruct (inMeters rw msg) as [packets traffic]. cbn [fst snd] in *.
  exists i, packets, traffic.
  assert (packets ≠ traffic) as Hne.
  { pose proof meters_NoDup as Hnd. apply NoDup_app in Hnd as (_ & Hd & _).
    intros ->. eapply Hd; [by eapply list_elem_of_lookup_2|].
    apply elem_of_app. left. by eapply list_elem_of_lookup_2. }
  split_and!; [done | done | | |].
  - by rewrite count_Mark_ne, count_Mark_eq.
  - by rewrite count_Mark_eq, count_Mark_ne.
  - intros name H1 H2. by rewrite !count_Mark_ne.
Qed.

(** X8. Totals over a read: a successful read adds 1 to the sum of the
    inbound packets meters and the size of the message to the sum of the
    inbound traffic meters, and leaves the sums of the outbound meters
    as they were. *)
Theorem Metered_ReadMsg_totals (rw : Metered.meteredMsgReadWriter)
    (msg : Metered.Msg) (meters : gmap string Z) :
  let meters' := (ReadMsg rw (msg, None) meters).2 in
  Metered.total Metered.inPacketsMeters meters'
  = (Metered.total Metered.inPacketsMeters meters + 1)%Z
  ∧ Metered.total Metered.inTrafficMeters meters'
    = (Metered.total Metered.inTrafficMeters meters + Metered.Size msg)%Z
  ∧ Metered.total Metered.outPacketsMeters meters'
    = Metered.total Metered.outPacketsMeters meters
  ∧ Metered.total Metered.outTrafficMeters meters'
    = Metered.total Metered.outTrafficMeters meters.
Proof.
  cbv zeta. unfold Metered.ReadMsg.
  destruct (inMeters_paired rw msg) as (i & Hp & Ht).
  destruct (inMeters rw msg) as [packets traffic]. cbn [fst snd] in *.
  destruct (paired_elem_of _ _ _ _ _ Hp Ht) as [Hpin Htin].
  pose proof meters_NoDup as Hnd.
  apply NoDup_app in Hnd as (N1 & D1 & Hnd).
  apply NoDup_app in Hnd as (N2 & D2 & Hnd).
  apply NoDup_app in Hnd as (N3 & D3 & N4).
  assert (∀ l, l = Metered.inTrafficMeters ∨ l = Metered.outPacketsMeters
               ∨ l = Metered.outTrafficMeters → packets ∉ l) as Hp'.
  { intros l Hl Hin. eapply D1; [done|]. rewrite !elem_of_app.
    destruct Hl as [->|[->| ->]]; auto. }
  assert (∀ l, l = Metered.outPacketsMeters ∨ l = Metered.outTrafficMeters →
               traffic ∉ l) as Ht'.
  { intros l Hl Hin. eapply D2; [done|]. rewrite !elem_of_app.
    destruct Hl as [->| ->]; auto. }
  assert (traffic ∉ Metered.inPacketsMeters) as Ht''.
  { intros Hin. eapply D1; [exact Hin|]. rewrite !elem_of_app. auto. }
  split_and!.
  - by rewrite total_Mark_notin, total_Mark_in.
  - rewrite total_Mark_in, total_Mark_notin by auto. done.
  - rewrite !total_Mark_notin by auto. done.
  - rewrite !total_Mark_notin by auto. done.
Qed.

(** X9. [WriteMsg] accounts before it sends: whether the wrapped stream
    accepts the message or fails, the result of the wrapped stream is
    handed on, the sum of the outbound packets meters has grown by 1 and
    the sum of the outbound traffic meters by the size of the message;
    the sums of the inbound meters are as they were. *)
Theorem Metered_WriteMsg_accounts_failures_too (rw : Metered.meteredMsgReadWriter)
    (msg : Metered.Msg) (inner : option Metered.ioError) (meters : gmap string Z) :
  let r := WriteMsg rw msg inner meters in
  r.1 = inner
  ∧ r.2 = (WriteMsg rw msg None meters).2
  ∧ Metered.total Metered.outPacketsMeters r.2
    = (Metered.total Metered.outPacketsMeters meters + 1)%Z
  ∧ Metered.total Metered.outTrafficMeters r.2
    = (Metered.total Metered.outTrafficMeters meters + Metered.Size msg)%Z
  ∧ Metered.total Metered.inPacketsMeters r.2
    = Metered.total Metered.inPacketsMeters meters
  ∧ Metered.total Metered.inTrafficMeters r.2
    = Metered.total Metered.inTrafficMeters meters.
Proof.
  cbv zeta. unfold Metered.WriteMsg.
  destruct (outMeters_paired rw msg) as (i & Hp & Ht).
  destruct (outMeters rw msg) as [packets traffic]. cbn [fst snd] in *.
  destruct (paired_elem_of _ _ _ _ _ Hp Ht) as [Hpin Htin].
  pose proof meters_NoDup as Hnd.
  apply NoDup_app in Hnd as (N1 & D1 & Hnd).
  apply NoDup_app in Hnd as (N2 & D2 & Hnd).
  apply NoDup_app in Hnd as (N3 & D3 & N4).
  assert (packets ∉ Metered.inPacketsMeters) as P1.
  { intros Hin. eapply D1; [exact Hin|]. rewrite !elem_of_app. auto. }
  assert (packets ∉ Metered.inTrafficMeters) as P2.
  { intros Hin. eapply D2; [exact Hin|]. rewrite !elem_of_app. auto. }
  assert (packets ∉ Metered.outTrafficMeters) as P3.
  { intros Hin. by eapply D3. }
  assert (traffic ∉ Metered.inPacketsMeters) as T1.
  { intros Hin. eapply D1; [exact Hin|]. rewrite !elem_of_app. auto. }
  assert (traffic ∉ Metered.inTrafficMeters) as T2.
  { intros Hin. eapply D2; [exact Hin|]. rewrite !elem_of_app. auto. }
  assert (traffic ∉ Metered.outPacketsMeters) as T3.
  { intros Hin. by eapply D3. }
  split_and!; [done | done | | | |].
  - by rewrite total_Mark_notin, total_Mark_in.
  - rewrite total_Mark_in, total_Mark_notin by auto. done.
  - rewrite !total_Mark_notin by auto. done.
  - rewrite !total_Mark_notin by auto. done.
Qed.

(** X10. Below protocol version [ath63] the state and receipt meters are
    out of use: a stream whose version is below [ath63] leaves the four
    inbound and outbound state and receipt meters of both measures
    untouched by every read and every write; the stream that
    [newMeteredMsgWriter] makes has version 0 until [Init] sets one. *)
Theorem Metered_state_receipt_meters_gated (rw : Metered.meteredMsgReadWriter)
    (msg : Metered.Msg) (inner : option Metered.ioError) (meters : gmap string Z)
    (name : string) :
  (Metered.version rw < ath63)%Z →
  name ∈ [Metered.reqStateInPacketsMeter; Metered.reqStateInTrafficMeter;
          Metered.reqReceiptInPacketsMeter; Metered.reqReceiptInTrafficMeter;
          Metered.reqStateOutPacketsMeter; Metered.reqStateOutTrafficMeter;
          Metered.reqReceiptOutPacketsMeter; Metered.reqReceiptOutTrafficMeter] →
  Metered.count (ReadMsg rw (msg, inner) meters).2 name = Metered.count meters name
  ∧ Metered.count (WriteMsg rw msg inner meters).2 name = Metered.count meters name
  ∧ Metered.newMeteredMsgWriter true = Some (Metered.mkMetered 0).
Proof.
  intros Hv Hname.
  assert ((Metered.version rw >=? ath63)%Z = false) as Hge.
  { rewrite Z.geb_leb. apply Z.leb_gt. lia. }
  unfold Metered.ReadMsg, Metered.WriteMsg, Metered.inMeters, Metered.outMeters.
  rewrite Hge. simpl.
  repeat (apply elem_of_cons in Hname as [->|Hname];
          [split_and!; [|
                        repeat case_match; simplify_eq/=; by rewrite !count_Mark_ne
                       | done];
           destruct inner; [done|];
           repeat case_match; simplify_eq/=; by rewrite !count_Mark_ne|]).
  by apply elem_of_nil in Hname.
Qed.

End MeteredFacts.

(** ** The rest of the full node service *)

(** X11. The extra data that [makeExtraData] returns never exceeds
    [params.MaximumExtraDataSize], whatever the input and whatever the
    default encoding is. *)
Theorem makeExtraData_within_limit (MaximumExtraDataSize : Z)
    (defaultExtraData extra : list Z) :
  (0 ≤ MaximumExtraDataSize)%Z →
  (Z.of_nat (length (Service.makeExtraData MaximumExtraDataSize defaultExtraData extra))
   ≤ MaximumExtraDataSize)%Z.
Proof.
  intros Hmax. unfold Service.makeExtraData.
  repeat case_bool_decide; simpl; lia.
Qed.

(** X12. The default is only for an empty input: extra data that is not
    empty is returned as it is when it fits the limit, and is dropped to
    nil, not replaced by the default, when it does not.  So
    [makeExtraData] is not idempotent: applied again to the nil it
    returned for an oversized input, it gives the default. *)
Theorem makeExtraData_nonempty (MaximumExtraDataSize : Z)
    (defaultExtraData extra : list Z) :
  extra ≠ [] →
  Service.makeExtraData MaximumExtraDataSize defaultExtraData extra
  = (if bool_decide (Z.of_nat (length extra) ≤ MaximumExtraDataSize)%Z
     then extra else [])
  ∧ ((MaximumExtraDataSize < Z.of_nat (length extra))%Z →
     (Z.of_nat (length defaultExtraData) ≤ MaximumExtraDataSize)%Z →
     Service.makeExtraData MaximumExtraDataSize defaultExtraData
       (Service.makeExtraData MaximumExtraDataSize defaultExtraData extra)
     = defaultExtraData).
Proof.
  intros Hne. unfold Service.makeExtraData.
  assert (length extra ≠ 0) as Hlen by (by destruct extra).
  rewrite (bool_decide_eq_false_2 (length extra = 0)) by done. split.
  - repeat case_bool_decide; try done; lia.
  - intros Hover Hfit.
    rewrite (bool_decide_eq_true_2
               (Z.of_nat (length extra) > MaximumExtraDataSize)%Z) by lia.
    simpl.
    rewrite (bool_decide_eq_false_2
               (Z.of_nat (length defaultExtraData) > MaximumExtraDataSize)%Z) by lia.
    done.
Qed.

Lemma Atlantisbase_ok_atherbase (wallets : list (list Z)) (s : Service.Mining) :
  (Service.Atlantisbase wallets s).1.2 = None →
  Service.atherbase (Service.Atlantisbase wallets s).2
  = (Service.Atlantisbase wallets s).1.1.
Proof.
  unfold Service.Atlantisbase. case_bool_decide; [done|].
  by destruct wallets as [|[|a w] ws].
Qed.

(** X13. A configured address sticks.  Once [Atlantisbase] has returned
    an address other than the zero address, every later call returns
    that address and changes nothing, whatever wallets the account
    manager then has; the same holds after [SetAtlantisbase] with an
    address other than the zero address, which the miner is given too. *)
Theorem Atlantisbase_sticks (wallets wallets' : list (list Z)) (s s1 : Service.Mining)
    (a : Z) :
  a ≠ 0%Z →
  (Service.Atlantisbase wallets s = ((a, None), s1) →
   Service.Atlantisbase wallets' s1 = ((a, None), s1))
  ∧ Service.Atlantisbase wallets' (Service.SetAtlantisbase a s)
    = ((a, None), Service.SetAtlantisbase a s)
  ∧ Service.minerCoinbase (Service.SetAtlantisbase a s) = a.
Proof.
  intros Ha. unfold Service.Atlantisbase. split_and!.
  - intros Hres.
    assert (Service.atherbase s1 = a) as Hs1.
    { case_bool_decide; [by simplify_eq|].
      destruct wallets as [|[|a' w] ws]; by simplify_eq. }
    rewrite Hs1. by rewrite bool_decide_eq_true_2.
  - simpl. by rewrite bool_decide_eq_true_2.
  - done.
Qed.

(** X14. When [Atlantisbase] fails.  It returns an error exactly when no
    address is configured and the first wallet is missing or has no
    account; accounts of later wallets are not looked at.  On the error
    the address returned is the zero address and nothing is changed. *)
Theorem Atlantisbase_error (wallets : list (list Z)) (s : Service.Mining) :
  let r := Service.Atlantisbase wallets s in
  (r.1.2 ≠ None
   ↔ Service.atherbase s = 0%Z ∧ (wallets = [] ∨ ∃ ws, wallets = [] :: ws))
  ∧ (r.1.2 ≠ None → r.1.1 = 0%Z ∧ r.2 = s)
  ∧ (r.1.2 = None → Service.atherbase r.2 = r.1.1).
Proof.
  cbv zeta. unfold Service.Atlantisbase.
  case_bool_decide as Hz; simpl.
  - split_and!; [|done|done]. split; [done|]. intros [Hzero _]. done.
  - assert (Service.atherbase s = 0%Z) as Hzero.
    { destruct (decide (Service.atherbase s = 0%Z)); [done|]. by destruct Hz. }
    destruct wallets as [|[|a w] ws]; simpl; split_and!; try done.
    + split; [|done]. intros _. split; [done|]. by left.
    + split; [|done]. intros _. split; [done|]. right. by exists ws.
    + split; [done|]. intros [_ [Hw|[ws' Hw]]]; discriminate.
Qed.

(** X15. [StartMining] on failure: when it returns an error no miner was
    started, the miner was given no address, the transaction acceptance
    flag is as it was and no signer was authorised; the error is
    "atherbase missing" exactly when [Atlantisbase] fails, and "signer
    missing" only with a clique engine whose account manager finds no
    wallet for the address. *)
Theorem StartMining_failure (local isClique : bool) (findWallet : Z → bool)
    (wallets : list (list Z)) (s s' : Service.Mining) (err : Service.miningError) :
  Service.StartMining local isClique findWallet wallets s = (Some err, s') →
  Service.minerStarted s' = Service.minerStarted s
  ∧ Service.minerCoinbase s' = Service.minerCoinbase s
  ∧ Service.acceptTxs s' = Service.acceptTxs s
  ∧ Service.cliqueSigner s' = Service.cliqueSigner s
  ∧ s' = (Service.Atlantisbase wallets s).2
  ∧ (err = Service.ErrAtherbaseMissing
     ↔ (Service.Atlantisbase wallets s).1.2 ≠ None)
  ∧ (err = Service.ErrSignerMissing →
     isClique = true
     ∧ findWallet (Service.Atlantisbase wallets s).1.1 = false).
Proof.
  unfold Service.StartMining.
  assert (Service.minerStarted (Service.Atlantisbase wallets s).2 = Service.minerStarted s
          ∧ Service.minerCoinbase (Service.Atlantisbase wallets s).2 = Service.minerCoinbase s
          ∧ Service.acceptTxs (Service.Atlantisbase wallets s).2 = Service.acceptTxs s
          ∧ Service.cliqueSigner (Service.Atlantisbase wallets s).2 = Service.cliqueSigner s)
    as (F1 & F2 & F3 & F4).
  { unfold Service.Atlantisbase. case_bool_decide; [done|].
    by destruct wallets as [|[|a w] ws]. }
  destruct (Service.Atlantisbase wallets s) as [[eb [e|]] s1]; simpl in *.
  - intros [= <- <-]. split_and!; try done.
  - destruct isClique, (findWallet eb) eqn:Hf; simpl; intros [= <- <-];
      split_and!; try done.
Qed.

(** X16. [StartMining] on success: a goroutine running the miner was
    launched with the address that [Atlantisbase] returned, and that
    address is the one now configured; with a clique engine the account
    manager had a wallet for the address and the address was authorised
    as signer; transactions are accepted from then on if the mining is
    local, and the flag is as it was otherwise. *)
Theorem StartMining_success (local isClique : bool) (findWallet : Z → bool)
    (wallets : list (list Z)) (s s' : Service.Mining) :
  Service.StartMining local isClique findWallet wallets s = (None, s') →
  ∃ eb,
    (Service.Atlantisbase wallets s).1 = (eb, None)
    ∧ Service.minerStarted s' = true
    ∧ Service.minerCoinbase s' = eb
    ∧ Service.atherbase s' = eb
    ∧ (isClique = true → findWallet eb = true ∧ Service.cliqueSigner s' = Some eb)
    ∧ (isClique = false → Service.cliqueSigner s' = Service.cliqueSigner s)
    ∧ Service.acceptTxs s' = (if local then 1%Z else Service.acceptTxs s).
Proof.
  unfold Service.StartMining.
  pose proof (Atlantisbase_ok_atherbase wallets s) as Hok.
  assert (Service.acceptTxs (Service.Atlantisbase wallets s).2 = Service.acceptTxs s
          ∧ Service.cliqueSigner (Service.Atlantisbase wallets s).2 = Service.cliqueSigner s)
    as (F3 & F4).
  { unfold Service.Atlantisbase. case_bool_decide; [done|].
    by destruct wallets as [|[|a w] ws]. }
  destruct (Service.Atlantisbase wallets s) as [[eb [e|]] s1]; simpl in *; [done|].
  specialize (Hok eq_refl).
  destruct isClique, (findWallet eb) eqn:Hf; simpl; intros [= <-]; simpl;
    exists eb; split_and!; try done; by destruct local.
Qed.

Lemma int_small (z : Z) : (- 2 ^ 63 ≤ z < 2 ^ 63)%Z → Service.int z = z.
Proof.
  intros Hz. unfold Service.int.
  rewrite Z.mod_small by lia. lia.
Qed.

Lemma int_overflow (z : Z) : (2 ^ 63 ≤ z < 2 ^ 64)%Z → Service.int z = (z - 2 ^ 64)%Z.
Proof.
  intros Hz. unfold Service.int.
  assert ((z + 2 ^ 63) mod 2 ^ 64 = z + 2 ^ 63 - 2 ^ 64)%Z as ->; [|lia].
  symmetry. apply (Z.mod_unique _ _ 1); lia.
Qed.

(** X17. [Start] and the peer budget, for a peer limit and a light peer
    count that are Go [int]s.  [Start] fails exactly when light serving
    is on and the light peer count is not below the server's peer
    limit; by then the bloom handlers were started and the net API
    made, but the protocol manager and the light server were not
    started.  Otherwise the protocol manager is started once, followed
    by the light server iff there is one: with the server's limit when
    light serving is off, and with the limit less the light peers as an
    [int] when it is on.  That is the exact difference, a positive
    number, whenever the difference fits an [int], and then it is at
    most the limit if the light peer count is not negative; a negative
    light peer count that makes the difference overflow starts the
    protocol manager with a negative number. *)
Theorem Start_peer_budget {CI : Type} (limits : Service.PeerLimits)
    (srvr : Service.Server) (s : Node.Atlantis (CI := CI)) :
  (- 2 ^ 63 ≤ Service.MaxPeers srvr < 2 ^ 63)%Z →
  (- 2 ^ 63 ≤ Service.LightPeers limits < 2 ^ 63)%Z →
  let r := Service.Start limits srvr s in
  (r.1 ≠ None
   ↔ (Service.LightServ limits > 0)%Z
     ∧ (Service.MaxPeers srvr ≤ Service.LightPeers limits)%Z)
  ∧ (r.1 ≠ None →
     r.2 = [Service.CallStartBloomHandlers;
            Service.CallNewPublicNetAPI (Node.networkId s)])
  ∧ (r.1 = None →
     ∃ n,
       r.2 = [Service.CallStartBloomHandlers;
              Service.CallNewPublicNetAPI (Node.networkId s);
              Service.CallProtocolManagerStart n]
             ++ (if Node.lesServer s then [Service.CallLesServerStart] else [])
       ∧ ((Service.LightServ limits ≤ 0)%Z → n = Service.MaxPeers srvr)
       ∧ ((Service.LightServ limits > 0)%Z →
          n = Service.int (Service.MaxPeers srvr - Service.LightPeers limits)
          ∧ ((Service.MaxPeers srvr - Service.LightPeers limits < 2 ^ 63)%Z →
             (0 < n)%Z
             ∧ n = (Service.MaxPeers srvr - Service.LightPeers limits)%Z)
          ∧ ((0 ≤ Service.LightPeers limits)%Z →
             (0 < n ≤ Service.MaxPeers srvr)%Z
             ∧ n = (Service.MaxPeers srvr - Service.LightPeers limits)%Z)
          ∧ ((2 ^ 63 ≤ Service.MaxPeers srvr - Service.LightPeers limits)%Z →
             (n < 0)%Z
             ∧ n = (Service.MaxPeers srvr - Service.LightPeers limits - 2 ^ 64)%Z))).
Proof.
  intros Hmax Hlight. cbv zeta. unfold Service.Start.
  case_bool_decide as Hserv; [case_bool_decide as Hpeers|]; simpl.
  - split; [|split; [done|done]]. split; [intros _; lia | done].
  - split_and!; [| done |].
    + split; [done|]. intros [_ ?]. lia.
    + intros _. eexists. split; [reflexivity|]. split; [lia|].
      intros _. split; [done|]. split_and!.
      * intros Hfit. rewrite int_small by lia. lia.
      * intros Hpos. rewrite int_small by lia. lia.
      * intros Hover. rewrite int_overflow by lia. lia.
  - split_and!; [| done |].
    + split; [done|]. intros [? _]. lia.
    + intros _. eexists. split; [reflexivity|]. split; [done|]. lia.
Qed.

Section NewFacts.

Context {CI : Type} {API : ChainIndexerAPI CI Node.Database}.
Variable LightSync : Node.SyncMode.
Variable IsValid : Node.SyncMode → bool.
Variables BloomBitsBlocks BlockChainVersion : Z.

Abbreviation NewResult :=
  (Node.NewResult LightSync IsValid BloomBitsBlocks BlockChainVersion).

Ltac mem_cases H tac :=
  repeat (apply elem_of_cons in H as [H|H];
          [first [by simplify_eq | simplify_eq; tac]|]);
  try (by apply elem_of_nil in H).


Ltac calls_iff :=
  split;
  [ let H := fresh "Hin" in
    intros H;
    first [ by call_mem_inv H
          | repeat (apply elem_of_cons in H as [H|H]; [simplify_eq; try done; eauto|]);
            try (by apply elem_of_nil in H) ];
    eauto
  | intros; destruct_and?; destruct_or?; simplify_eq; try done; try call_mem ].

(** X18. When [New] starts the bloom indexer.  The indexer is started
    on exactly two outcomes: success, and the failure of
    [NewProtocolManager], where [New] returns no service although the
    indexer it started keeps running.  No run of [New] closes the bloom
    indexer or the chain database, whatever it returns. *)
Theorem New_starts_indexer_iff (w : Node.World) (cfg : Node.Config) :
  let r := NewResult w cfg in
  (Node.CallBloomIndexerStart ∈ r.2
   ↔ r.1.2 = None ∨ r.1.2 = Some Node.ErrNewProtocolManager)
  ∧ (r.1.2 = Some Node.ErrNewProtocolManager → r.1.1 = None)
  ∧ (Node.CallBloomIndexerClose ∉ r.2)
  ∧ (Node.CallChainDbClose ∉ r.2).
Proof.
  cbv zeta. run_New.
  repeat (case_match; simplify_eq/=); split_and!; try done;
    try calls_iff;
    try (intros Hin; call_mem_inv Hin).
Qed.


(** X20. A [ConfigCompatError] from the genesis setup is not a failure of
    [New]: construction goes on, and once the block chain exists the
    chain is rewound to the block the error names and the chain
    configuration is written; any other genesis error ends [New] before
    any further resource is made.  [SetHead] is called in no other
    case. *)
Theorem New_rewinds_on_config_upgrade (w : Node.World) (cfg : Node.Config) :
  let r := NewResult w cfg in
  (∀ n, Node.CallSetHead n ∈ r.2 ↔
        Node.setupGenesis w = Node.ConfigCompatError n
        ∧ Node.CallNewBlockChain ∈ r.2
        ∧ Node.newBlockChainFails w = false)
  ∧ (∀ n, Node.CallSetHead n ∈ r.2 → Node.CallWriteChainConfig ∈ r.2)
  ∧ (r.1.2 = Some Node.ErrGenesis →
     Node.setupGenesis w = Node.GenesisOther
     ∧ r.2 = [Node.CallOpenDatabase "chaindata"; Node.CallSetupGenesisBlock])
  ∧ (r.1.2 = None → ∀ n, Node.setupGenesis w = Node.ConfigCompatError n →
     Node.CallSetHead n ∈ r.2).
Proof.
  cbv zeta. run_New.
  repeat (case_match; simplify_eq/=);
    (split_and!;
     [ intros n; split;
       [ intros Hin;
         mem_cases Hin ltac:(split_and!; [done | call_mem | done])
       | intros (Hg & Hin & Hf); simplify_eq;
         first [by call_mem | call_mem_inv Hin] ]
     | intros n Hin; first [by call_mem | call_mem_inv Hin]
     | intros Heq; by simplify_eq
     | intros Heq n Hg; simplify_eq; call_mem ]).
Qed.

End NewFacts.

(** ** The rest of the full node API backend *)

(** X21. [GetLogs] is [GetReceipts] seen through the logs: for every
    hash, [GetLogs] returns nil exactly when [GetReceipts] does (the
    header number or the receipts are missing from the database), and
    otherwise one list of logs per receipt, in the order of the
    receipts, the [i]-th being the logs of the [i]-th receipt. *)
Theorem GetLogs_of_GetReceipts (db : EthApi.ChainDb) (hash : Z) :
  EthApi.GetLogs db hash
    = (λ receipts : list EthApi.Receipt, EthApi.Logs <$> receipts)
        <$> EthApi.GetReceipts db hash
  ∧ (EthApi.GetLogs db hash = None ↔ EthApi.GetReceipts db hash = None)
  ∧ (EthApi.ReadHeaderNumber db hash = None → EthApi.GetLogs db hash = None)
  ∧ ∀ (logs : list (list Z)) (receipts : list EthApi.Receipt),
      EthApi.GetLogs db hash = Some logs →
      EthApi.GetReceipts db hash = Some receipts →
      length logs = length receipts
      ∧ ∀ i, logs !! i = EthApi.Logs <$> receipts !! i.
Proof.
  unfold EthApi.GetLogs, EthApi.GetReceipts.
  destruct (EthApi.ReadHeaderNumber db hash) as [number|]; [|done].
  destruct (EthApi.ReadReceipts db hash number) as [receipts|]; [|done].
  simpl. split_and!; [done | done | done |].
  intros logs receipts' [= <-] [= <-]. split.
  - apply length_fmap.
  - intros i. apply list_lookup_fmap.
Qed.

Lemma foldl_append_batches (order : list (Z * list Z)) (acc : list Z) :
  foldl (λ txs entry, txs ++ entry.2) acc order = acc ++ concat (order.*2).
Proof.
  revert acc. induction order as [|e order IH]; intros acc; simpl.
  - by rewrite app_nil_r.
  - by rewrite IH, app_assoc.
Qed.

Lemma concat_Permutation (l l' : list (list Z)) :
  l ≡ₚ l' → concat l ≡ₚ concat l'.
Proof.
  induction 1 as [|x l l' _ IH|x y l|l1 l2 l3 _ IH1 _ IH2]; simpl.
  - done.
  - by rewrite IH.
  - rewrite !app_assoc. f_equiv. apply Permutation_app_comm.
  - by etrans.
Qed.

Lemma elem_of_concat (x : Z) (l : list (list Z)) :
  x ∈ concat l ↔ ∃ batch, batch ∈ l ∧ x ∈ batch.
Proof.
  rewrite list_elem_of_In, in_concat. split.
  - intros (b & Hb & Hx). exists b. by rewrite !list_elem_of_In.
  - intros (b & Hb & Hx). exists b. by rewrite <- !list_elem_of_In.
Qed.

Lemma length_concat_sum (l : list (list Z)) :
  length (concat l) = sum_list (length <$> l).
Proof.
  induction l as [|x l IH]; simpl; [done|]. by rewrite length_app, IH.
Qed.

(** X22. [GetPoolTransactions] returns every pending transaction, in
    whatever order the map is visited: with no error from the pool, the
    result holds a transaction iff some account has it in its pending
    batch, its length is the sum of the lengths of the batches, and the
    results of two visiting orders are permutations of each other.  An
    error of the pool is handed on with no transactions. *)
Theorem GetPoolTransactions_all_pending (pending : gmap Z (list Z))
    (order order' : list (Z * list Z)) (err : EthApi.poolError) :
  order ≡ₚ map_to_list pending →
  order' ≡ₚ map_to_list pending →
  let r := EthApi.GetPoolTransactions (inl pending) order in
  r.2 = None
  ∧ (∀ tx, tx ∈ r.1 ↔ ∃ addr batch, pending !! addr = Some batch ∧ tx ∈ batch)
  ∧ length r.1 = sum_list (length <$> (map_to_list pending).*2)
  ∧ r.1 ≡ₚ (EthApi.GetPoolTransactions (inl pending) order').1
  ∧ EthApi.GetPoolTransactions (inr err) order = ([], Some err).
Proof.
  intros Ho Ho'. cbv zeta. unfold EthApi.GetPoolTransactions. simpl.
  rewrite !foldl_append_batches. simpl.
  split_and!; [done | | | | done].
  - intros tx. rewrite elem_of_concat. split.
    + intros (batch & Hb & Htx).
      apply list_elem_of_fmap in Hb as ([addr batch'] & -> & Hin).
      rewrite Ho in Hin. apply elem_of_map_to_list in Hin.
      by exists addr, batch'.
    + intros (addr & batch & Hl & Htx). exists batch. split; [|done].
      apply list_elem_of_fmap. exists (addr, batch). split; [done|].
      rewrite Ho. by apply elem_of_map_to_list.
  - rewrite length_concat_sum. by rewrite Ho.
  - apply concat_Permutation. by rewrite Ho, Ho'.
Qed.

(** X23. A block that is not found is no error: when the number is
    neither the pending nor the latest one and the chain has no header
    for it, [StateAndHeaderByNumber] returns no state, no header and no
    error.  In every case a state or an error is returned only together
    with a header, the error then being the one of [StateAt] for the
    root of that header; and the pending number is answered from the
    miner without a look at the chain. *)
Theorem StateAndHeaderByNumber_not_found (PendingBlockNumber LatestBlockNumber : Z)
    (c : EthApi.Chain) (blockNr : Z) :
  let r := EthApi.StateAndHeaderByNumber PendingBlockNumber LatestBlockNumber c blockNr in
  (blockNr ≠ PendingBlockNumber → blockNr ≠ LatestBlockNumber →
   EthApi.GetHeaderByNumber c (blockNr mod 2 ^ 64)%Z = None →
   r = (None, None, None))
  ∧ (r.1.1 ≠ None ∨ r.2 ≠ None →
     ∃ header, r.1.2 = Some header
       ∧ (blockNr ≠ PendingBlockNumber →
          (r.1.1, r.2) = EthApi.StateAt c (EthApi.Root header)))
  ∧ (blockNr = PendingBlockNumber →
     r = (Some (EthApi.pendingState c), Some (EthApi.pendingHeader c), None)).
Proof.
  cbv zeta. unfold EthApi.StateAndHeaderByNumber, EthApi.HeaderByNumber.
  split_and!.
  - intros H1 H2 H3. rewrite !bool_decide_eq_false_2 by done. by rewrite H3.
  - repeat case_bool_decide; simpl.
    + intros _. eexists. split; [done|]. done.
    + destruct (EthApi.StateAt c _) as [st e] eqn:E. simpl.
      intros _. eexists. split; [done|]. intros _. by rewrite E.
    + destruct (EthApi.GetHeaderByNumber c _) as [h|]; simpl.
      * destruct (EthApi.StateAt c _) as [st e] eqn:E. simpl.
        intros _. eexists. split; [done|]. intros _. by rewrite E.
      * intros [?|?]; done.
  - intros ->. by rewrite bool_decide_eq_true_2.
Qed.

(** ** Instances of the conditional properties *)

Lemma Fuse_features_monotone_witness :
  Fuse.HasUmask ∈ Fuse.features
  ∧ Fuse.GE (Fuse.mkProtocol 7 23) (Fuse.mkProtocol 7 12) = true
  ∧ Fuse.HasUmask (Fuse.mkProtocol 7 12) = true
  ∧ Fuse.HasUmask (Fuse.mkProtocol 7 23) = true.
Proof.
  assert (Fuse.HasUmask ∈ Fuse.features) as Hf.
  { unfold Fuse.features. repeat first [apply list_elem_of_here | apply list_elem_of_further]. }
  split_and!; [exact Hf | reflexivity | reflexivity |].
  apply (Fuse_features_monotone Fuse.HasUmask (Fuse.mkProtocol 7 12) (Fuse.mkProtocol 7 23));
    [exact Hf | reflexivity | reflexivity].
Defined.

Lemma Metered_state_receipt_meters_gated_witness :
  let rw := Metered.mkMetered 62 in
  let msg := Metered.mkMsg 13 100 in
  (Metered.version rw < 63)%Z
  ∧ Metered.count (Metered.ReadMsg 63 1 2 4 6 7 14 16 rw (msg, None) ∅).2
      Metered.reqStateInPacketsMeter = Metered.count ∅ Metered.reqStateInPacketsMeter
  ∧ Metered.count (Metered.WriteMsg 63 1 2 4 6 7 14 16 rw msg None ∅).2
      Metered.reqStateInPacketsMeter = Metered.count ∅ Metered.reqStateInPacketsMeter
  ∧ Metered.newMeteredMsgWriter true = Some (Metered.mkMetered 0).
Proof.
  cbv zeta. split; [simpl; lia|].
  apply (Metered_state_receipt_meters_gated 63 1 2 4 6 7 14 16
           (Metered.mkMetered 62) (Metered.mkMsg 13 100) None ∅
           Metered.reqStateInPacketsMeter).
  - simpl; lia.
  - apply list_elem_of_here.
Defined.

Lemma makeExtraData_within_limit_witness :
  (0 ≤ 32)%Z
  ∧ (Z.of_nat (length (Service.makeExtraData 32 [1; 2; 3]%Z (replicate 40 7%Z))) ≤ 32)%Z.
Proof.
  split; [lia|].
  apply (makeExtraData_within_limit 32 [1; 2; 3]%Z (replicate 40 7%Z)). lia.
Defined.

Lemma makeExtraData_nonempty_witness :
  replicate 40 7%Z ≠ []
  ∧ Service.makeExtraData 32 [1; 2; 3]%Z (replicate 40 7%Z)
    = (if bool_decide (Z.of_nat (length (replicate 40 7%Z)) ≤ 32)%Z
       then replicate 40 7%Z else [])
  ∧ ((32 < Z.of_nat (length (replicate 40 7%Z)))%Z →
     (Z.of_nat (length [1; 2; 3]%Z) ≤ 32)%Z →
     Service.makeExtraData 32 [1; 2; 3]%Z
       (Service.makeExtraData 32 [1; 2; 3]%Z (replicate 40 7%Z))
     = [1; 2; 3]%Z).
Proof.
  assert (replicate 40 7%Z ≠ []) as Hne by (simpl; discriminate).
  split; [exact Hne|].
  apply (makeExtraData_nonempty 32 [1; 2; 3]%Z (replicate 40 7%Z) Hne).
Defined.

Lemma Atlantisbase_sticks_witness :
  let s := Service.mkMining 0 0 false 0 None in
  let s1 := Service.mkMining 5 0 false 0 None in
  (5 ≠ 0)%Z
  ∧ (Service.Atlantisbase [[5; 6]; [7]]%Z s = ((5%Z, None), s1) →
     Service.Atlantisbase [] s1 = ((5%Z, None), s1))
  ∧ Service.Atlantisbase [] (Service.SetAtlantisbase 5 s)
    = ((5%Z, None), Service.SetAtlantisbase 5 s)
  ∧ Service.minerCoinbase (Service.SetAtlantisbase 5 s) = 5%Z.
Proof.
  cbv zeta. split; [lia|].
  apply (Atlantisbase_sticks [[5; 6]; [7]]%Z [] (Service.mkMining 0 0 false 0 None)
           (Service.mkMining 5 0 false 0 None) 5). lia.
Defined.

Lemma StartMining_failure_witness :
  let s := Service.mkMining 0 0 false 0 None in
  Service.StartMining true false (λ _, true) [[]; [7%Z]] s
  = (Some Service.ErrAtherbaseMissing, s)
  ∧ Service.minerStarted s = false
  ∧ (Service.ErrAtherbaseMissing = Service.ErrAtherbaseMissing
     ↔ (Service.Atlantisbase [[]; [7%Z]] s).1.2 ≠ None).
Proof.
  cbv zeta.
  assert (Service.StartMining true false (λ _, true) [[]; [7%Z]]
            (Service.mkMining 0 0 false 0 None)
          = (Some Service.ErrAtherbaseMissing, Service.mkMining 0 0 false 0 None)) as Hrun
    by reflexivity.
  split; [exact Hrun|].
  pose proof (StartMining_failure true false (λ _, true) [[]; [7%Z]]
                (Service.mkMining 0 0 false 0 None) (Service.mkMining 0 0 false 0 None)
                Service.ErrAtherbaseMissing Hrun) as (H1 & _ & _ & _ & _ & H6 & _).
  split; [exact H1 | exact H6].
Defined.

Lemma StartMining_success_witness :
  let s := Service.mkMining 0 0 false 0 None in
  let s' := Service.mkMining 5 5 true 1 (Some 5%Z) in
  Service.StartMining true true (λ _, true) [[5; 6]; [7]]%Z s = (None, s')
  ∧ ∃ eb,
      (Service.Atlantisbase [[5; 6]; [7]]%Z s).1 = (eb, None)
      ∧ Service.minerStarted s' = true
      ∧ Service.minerCoinbase s' = eb
      ∧ Service.atherbase s' = eb
      ∧ (true = true → True ∧ Service.cliqueSigner s' = Some eb)
      ∧ (true = false → Service.cliqueSigner s' = Service.cliqueSigner s)
      ∧ Service.acceptTxs s' = 1%Z.
Proof.
  cbv zeta.
  assert (Service.StartMining true true (λ _, true) [[5; 6]; [7]]%Z
            (Service.mkMining 0 0 false 0 None)
          = (None, Service.mkMining 5 5 true 1 (Some 5%Z))) as Hrun by reflexivity.
  split; [exact Hrun|].
  destruct (StartMining_success true true (λ _, true) [[5; 6]; [7]]%Z
              (Service.mkMining 0 0 false 0 None)
              (Service.mkMining 5 5 true 1 (Some 5%Z)) Hrun)
    as (eb & H1 & H2 & H3 & H4 & H5 & H6 & H7).
  exists eb. split_and!; try assumption.
  intros Ht. destruct (H5 Ht) as [_ Hs]. split; [exact I | exact Hs].
Defined.

Lemma Start_peer_budget_witness :
  let limits := Service.mkPeerLimits 1 (-1) in
  let srvr := Service.mkServer (2 ^ 63 - 1) in
  let r := Service.Start limits srvr Sample.freshNode in
  (- 2 ^ 63 ≤ Service.MaxPeers srvr < 2 ^ 63)%Z
  ∧ (- 2 ^ 63 ≤ Service.LightPeers limits < 2 ^ 63)%Z
  ∧ r.1 = None
  ∧ (r.1 = None →
     ∃ n,
       r.2 = [Service.CallStartBloomHandlers;
              Service.CallNewPublicNetAPI (Node.networkId Sample.freshNode);
              Service.CallProtocolManagerStart n]
             ++ (if Node.lesServer Sample.freshNode
                 then [Service.CallLesServerStart] else [])
       ∧ ((Service.LightServ limits ≤ 0)%Z → n = Service.MaxPeers srvr)
       ∧ ((Service.LightServ limits > 0)%Z →
          n = Service.int (Service.MaxPeers srvr - Service.LightPeers limits)
          ∧ ((Service.MaxPeers srvr - Service.LightPeers limits < 2 ^ 63)%Z →
             (0 < n)%Z
             ∧ n = (Service.MaxPeers srvr - Service.LightPeers limits)%Z)
          ∧ ((0 ≤ Service.LightPeers limits)%Z →
             (0 < n ≤ Service.MaxPeers srvr)%Z
             ∧ n = (Service.MaxPeers srvr - Service.LightPeers limits)%Z)
          ∧ ((2 ^ 63 ≤ Service.MaxPeers srvr - Service.LightPeers limits)%Z →
             (n < 0)%Z
             ∧ n = (Service.MaxPeers srvr - Service.LightPeers limits - 2 ^ 64)%Z))).
Proof.
  cbv zeta. split; [simpl; lia|]. split; [simpl; lia|]. split; [reflexivity|].
  apply (Start_peer_budget (Service.mkPeerLimits 1 (-1)) (Service.mkServer (2 ^ 63 - 1))
           Sample.freshNode); simpl; lia.
Defined.

Lemma GetPoolTransactions_all_pending_witness :
  let pending : gmap Z (list Z) := {[ 1%Z := [10; 11]%Z ]} in
  map_to_list pending ≡ₚ map_to_list pending
  ∧ ∀ tx, tx ∈ (EthApi.GetPoolTransactions (inl pending) (map_to_list pending)).1
          ↔ ∃ addr batch, pending !! addr = Some batch ∧ tx ∈ batch.
Proof.
  cbv zeta. split; [reflexivity|].
  apply (GetPoolTransactions_all_pending {[ 1%Z := [10; 11]%Z ]}
           (map_to_list {[ 1%Z := [10; 11]%Z ]}) (map_to_list {[ 1%Z := [10; 11]%Z ]})
           (EthApi.PoolError "full")); reflexivity.
Defined.
